(** * PathTraverser (src/commands/SwerveAutoCommand.py): a shallow embedding

    The traverser walks a group of pre-computed path segments, fires the
    callbacks bound to event markers and to stop events, and hands one
    trajectory state per control tick to the drive controller.

    Modelling choices.
    - Times (timer readings, marker times, segment durations) are exact
      numbers of clock ticks in [Z]; the source holds them in floats, of
      which only the order and the sum are used.
    - A Python callable is an opaque identity ([callback]); calling it is
      recorded in the [log] of the world, with the argument it received.
    - The class attributes of [PathTraverser] are one shared object
      ([PathTraverserClass]); the attributes of an instance are a
      [PathTraverser] record.  [self.event_markers] is looked up in the
      instance first and in the class second, as Python does.
    - The FPGA clock belongs to the environment: it is a field of the world
      that only the environment advances, and it does not move while one
      method runs.
    - Methods live in a state-and-exception monad: an exception keeps the
      state reached when it was raised. *)

From stdpp Require Import gmap strings list fin_maps.
From Stdlib Require Import ZArith Lia.

Open Scope Z_scope.

(* Records have definitional eta: updating a field with its own value is
   the identity by conversion. *)
Set Primitive Projections.

(** ** Values of the external libraries *)

Record Pose2d := { pose_x : Z; pose_y : Z; pose_rotation : Z }.

(** [PathPlannerTrajectory.PathPlannerState] *)
Record PathPlannerState := {
  state_time : Z;
  state_pose : Pose2d;
  state_velocity : Z;
  state_holonomicRotation : Z
}.

(** [wpimath.trajectory.Trajectory.State], the result of [asWPILibState()] *)
Record TrajectoryState := {
  wpi_time : Z;
  wpi_velocity : Z;
  wpi_pose : Pose2d
}.

Definition asWPILibState (s : PathPlannerState) : TrajectoryState :=
  {| wpi_time := state_time s; wpi_velocity := state_velocity s;
     wpi_pose := state_pose s |}.

(** [PathPlannerTrajectory.EventMarker] *)
Record EventMarker := {
  marker_names : list string;
  marker_time : Z
}.

(** [PathPlannerTrajectory.StopEvent] *)
Record StopEvent := {
  waitBehavior : nat;
  stop_names : list string;
  waitTime : Z
}.

(** One segment of a path group, a [PathPlannerTrajectory], seen through the
    accessors the traverser calls. *)
Record PathPlannerTrajectory := {
  getTotalTime : Z;
  getMarkers : list EventMarker;
  getEndStopEvent : StopEvent;
  getInitialState : PathPlannerState;
  getEndState : PathPlannerState;
  trajectory_sample : Z -> PathPlannerState
}.

Definition getInitialPose (p : PathPlannerTrajectory) : Pose2d :=
  state_pose (getInitialState p).

(** ** [wpilib.Timer] *)

Module Timer.

Record t := {
  m_startTime : Z;
  m_accumulatedTime : Z;
  m_running : bool
}.

(** [Timer()] : a stopped timer at zero. *)
Definition make (now : Z) : t :=
  {| m_startTime := now; m_accumulatedTime := 0; m_running := false |}.

Definition get (now : Z) (tm : t) : Z :=
  if m_running tm then (now - m_startTime tm) + m_accumulatedTime tm
  else m_accumulatedTime tm.

Definition reset (now : Z) (tm : t) : t :=
  {| m_startTime := now; m_accumulatedTime := 0; m_running := m_running tm |}.

(** [start()] does nothing on a running timer. *)
Definition start (now : Z) (tm : t) : t :=
  if m_running tm then tm
  else {| m_startTime := now; m_accumulatedTime := m_accumulatedTime tm;
          m_running := true |}.

End Timer.

(** ** The store *)

Definition callback := nat.

(** Attributes declared in the body of [class PathTraverser] (lines 21-24):
    one object for all instances. *)
Record PathTraverserClass := {
  event_callbacks : gmap string callback;
  stop_event_callbacks : list callback;
  event_markers : list EventMarker
}.

(** Attributes of one instance.  [own_event_markers] is [None] as long as the
    instance has no [event_markers] attribute of its own. *)
Record PathTraverser := {
  path_group : list PathPlannerTrajectory;
  current_path_index : nat;
  current_path : PathPlannerTrajectory;
  stop_event : StopEvent;
  current_path_initial_state : TrajectoryState;
  timer : Timer.t;
  paths_traversed : bool;
  total_time : Z;
  iterations : nat;
  own_event_markers : option (list EventMarker)
}.

(** A call of a callback, as the log records it: the callback and its
    argument, and for a marker callback the name it was bound under. *)
Inductive Event :=
| MarkerCall (name : string) (cb : callback) (m : EventMarker)
| StopCall (cb : callback) (s : StopEvent).

Record World := {
  fpga : Z;
  klass : PathTraverserClass;
  self : PathTraverser;
  log : list Event
}.

Inductive exn := IndexError | KeyError | ValueError | AttributeError.

Inductive result (A : Type) :=
| Ok (a : A)
| Raise (e : exn).
Arguments Ok {A} a.
Arguments Raise {A} e.

(** ** The monad of methods *)

Definition M (A : Type) : Type := World -> result A * World.

Definition ret {A} (a : A) : M A := fun w => (Ok a, w).

Definition bind {A B} (m : M A) (k : A -> M B) : M B :=
  fun w => match m w with
           | (Ok a, w') => k a w'
           | (Raise e, w') => (Raise e, w')
           end.

Definition raise {A} (e : exn) : M A := fun w => (Raise e, w).

Definition gets {A} (f : World -> A) : M A := fun w => (Ok (f w), w).

Definition modify (f : World -> World) : M unit := fun w => (Ok tt, f w).

Declare Scope py_scope.
Delimit Scope py_scope with py.
Notation "x <- c ;; k" := (bind c (fun x => k))
  (at level 100, c at next level, right associativity) : py_scope.
Notation "c ;;; k" := (bind c (fun _ => k))
  (at level 100, right associativity) : py_scope.
Open Scope py_scope.

(** Field updates. *)

Definition with_self (f : PathTraverser -> PathTraverser) (w : World) : World :=
  {| fpga := fpga w; klass := klass w; self := f (self w); log := log w |}.

Definition with_klass (f : PathTraverserClass -> PathTraverserClass) (w : World)
  : World :=
  {| fpga := fpga w; klass := f (klass w); self := self w; log := log w |}.

Definition with_log (f : list Event -> list Event) (w : World) : World :=
  {| fpga := fpga w; klass := klass w; self := self w; log := f (log w) |}.

Definition put_current_path_index (v : nat) (s : PathTraverser) :=
  {| path_group := path_group s; current_path_index := v;
     current_path := current_path s; stop_event := stop_event s;
     current_path_initial_state := current_path_initial_state s;
     timer := timer s; paths_traversed := paths_traversed s;
     total_time := total_time s; iterations := iterations s;
     own_event_markers := own_event_markers s |}.

Definition put_current_path (v : PathPlannerTrajectory) (s : PathTraverser) :=
  {| path_group := path_group s; current_path_index := current_path_index s;
     current_path := v; stop_event := stop_event s;
     current_path_initial_state := current_path_initial_state s;
     timer := timer s; paths_traversed := paths_traversed s;
     total_time := total_time s; iterations := iterations s;
     own_event_markers := own_event_markers s |}.

Definition put_stop_event (v : StopEvent) (s : PathTraverser) :=
  {| path_group := path_group s; current_path_index := current_path_index s;
     current_path := current_path s; stop_event := v;
     current_path_initial_state := current_path_initial_state s;
     timer := timer s; paths_traversed := paths_traversed s;
     total_time := total_time s; iterations := iterations s;
     own_event_markers := own_event_markers s |}.

Definition put_current_path_initial_state (v : TrajectoryState)
  (s : PathTraverser) :=
  {| path_group := path_group s; current_path_index := current_path_index s;
     current_path := current_path s; stop_event := stop_event s;
     current_path_initial_state := v;
     timer := timer s; paths_traversed := paths_traversed s;
     total_time := total_time s; iterations := iterations s;
     own_event_markers := own_event_markers s |}.

Definition put_timer (v : Timer.t) (s : PathTraverser) :=
  {| path_group := path_group s; current_path_index := current_path_index s;
     current_path := current_path s; stop_event := stop_event s;
     current_path_initial_state := current_path_initial_state s;
     timer := v; paths_traversed := paths_traversed s;
     total_time := total_time s; iterations := iterations s;
     own_event_markers := own_event_markers s |}.

Definition put_paths_traversed (v : bool) (s : PathTraverser) :=
  {| path_group := path_group s; current_path_index := current_path_index s;
     current_path := current_path s; stop_event := stop_event s;
     current_path_initial_state := current_path_initial_state s;
     timer := timer s; paths_traversed := v;
     total_time := total_time s; iterations := iterations s;
     own_event_markers := own_event_markers s |}.

Definition put_total_time (v : Z) (s : PathTraverser) :=
  {| path_group := path_group s; current_path_index := current_path_index s;
     current_path := current_path s; stop_event := stop_event s;
     current_path_initial_state := current_path_initial_state s;
     timer := timer s; paths_traversed := paths_traversed s;
     total_time := v; iterations := iterations s;
     own_event_markers := own_event_markers s |}.

Definition put_iterations (v : nat) (s : PathTraverser) :=
  {| path_group := path_group s; current_path_index := current_path_index s;
     current_path := current_path s; stop_event := stop_event s;
     current_path_initial_state := current_path_initial_state s;
     timer := timer s; paths_traversed := paths_traversed s;
     total_time := total_time s; iterations := v;
     own_event_markers := own_event_markers s |}.

Definition put_own_event_markers (v : option (list EventMarker))
  (s : PathTraverser) :=
  {| path_group := path_group s; current_path_index := current_path_index s;
     current_path := current_path s; stop_event := stop_event s;
     current_path_initial_state := current_path_initial_state s;
     timer := timer s; paths_traversed := paths_traversed s;
     total_time := total_time s; iterations := iterations s;
     own_event_markers := v |}.

Definition put_event_callbacks (v : gmap string callback)
  (c : PathTraverserClass) :=
  {| event_callbacks := v; stop_event_callbacks := stop_event_callbacks c;
     event_markers := event_markers c |}.

Definition put_stop_event_callbacks (v : list callback)
  (c : PathTraverserClass) :=
  {| event_callbacks := event_callbacks c; stop_event_callbacks := v;
     event_markers := event_markers c |}.

Definition put_event_markers (v : list EventMarker) (c : PathTraverserClass) :=
  {| event_callbacks := event_callbacks c;
     stop_event_callbacks := stop_event_callbacks c; event_markers := v |}.

(** ** Python primitives *)

(** [l[i]] *)
Definition py_index {A} (l : list A) (i : nat) : M A :=
  match l !! i with
  | Some x => ret x
  | None => raise IndexError
  end.

(** [l[-1]] *)
Definition py_last {A} (l : list A) : M A :=
  match last l with
  | Some x => ret x
  | None => raise IndexError
  end.

(** The list [l] without its first element equal to [x], if it has one. *)
Fixpoint remove_first (x : callback) (l : list callback)
  : option (list callback) :=
  match l with
  | [] => None
  | y :: l' => if decide (y = x) then Some l'
               else match remove_first x l' with
                    | Some r => Some (y :: r)
                    | None => None
                    end
  end.

(** [self.event_markers], read: the instance attribute if there is one, the
    class attribute otherwise. *)
Definition the_event_markers (w : World) : list EventMarker :=
  match own_event_markers (self w) with
  | Some l => l
  | None => event_markers (klass w)
  end.

(** A mutation in place of the list that [self.event_markers] denotes: it
    lands in the instance's own list if there is one, in the list of the
    class otherwise. *)
Definition mutate_event_markers (l : list EventMarker) (w : World) : World :=
  match own_event_markers (self w) with
  | Some _ => with_self (put_own_event_markers (Some l)) w
  | None => with_klass (put_event_markers l) w
  end.

(** [self.event_markers.pop(0)] *)
Definition event_markers_pop0 : M EventMarker :=
  l <- gets the_event_markers ;;
  match l with
  | [] => raise IndexError
  | m :: rest => modify (mutate_event_markers rest) ;;; ret m
  end.

(** [self.timer.get()], [.reset()], [.start()] *)
Definition timer_get : M Z :=
  gets (fun w => Timer.get (fpga w) (timer (self w))).

Definition timer_reset : M unit :=
  modify (fun w => with_self (put_timer (Timer.reset (fpga w) (timer (self w)))) w).

Definition timer_start : M unit :=
  modify (fun w => with_self (put_timer (Timer.start (fpga w) (timer (self w)))) w).

(** Calling a callback. *)
Definition call_marker_callback (name : string) (cb : callback)
  (m : EventMarker) : M unit :=
  modify (with_log (fun l => l ++ [MarkerCall name cb m])).

Definition call_stop_callback (cb : callback) (s : StopEvent) : M unit :=
  modify (with_log (fun l => l ++ [StopCall cb s])).

(** [del self.event_callbacks[name]] *)
Definition del_event_callback (name : string) : M unit :=
  cbs <- gets (fun w => event_callbacks (klass w)) ;;
  match cbs !! name with
  | Some _ => modify (with_klass (put_event_callbacks (delete name cbs)))
  | None => raise KeyError
  end.

(** [self.stop_event_callbacks.remove(cb)] *)
Definition stop_event_callbacks_remove (cb : callback) : M unit :=
  l <- gets (fun w => stop_event_callbacks (klass w)) ;;
  match remove_first cb l with
  | Some l' => modify (with_klass (put_stop_event_callbacks l'))
  | None => raise ValueError
  end.

(** ** The methods of [PathTraverser] *)

(** lines 57-58 *)
Definition get_initial_state : M TrajectoryState :=
  p <- gets (fun w => current_path (self w)) ;;
  ret (asWPILibState (getInitialState p)).

(** lines 41-52 *)
Definition reset : M unit :=
  modify (with_self (put_current_path_index 0%nat)) ;;;
  pg <- gets (fun w => path_group (self w)) ;;
  i <- gets (fun w => current_path_index (self w)) ;;
  p <- py_index pg i ;;
  modify (with_self (put_current_path p)) ;;;
  modify (with_self (put_stop_event (getEndStopEvent p))) ;;;
  s <- get_initial_state ;;
  modify (with_self (put_current_path_initial_state s)) ;;;
  modify (fun w => with_self (put_timer (Timer.make (fpga w))) w) ;;;
  modify (with_self (put_paths_traversed false)) ;;;
  modify (with_self (put_total_time 0)) ;;;
  modify (with_self (put_iterations 0%nat)).

(** lines 54-55 *)
Definition start_timer : M unit := timer_start.

(** lines 60-67 *)
Definition get_new_event_marker : M (option EventMarker) :=
  l <- gets the_event_markers ;;
  if (length l =? 0)%nat then ret None
  else
    event_marker <- py_index l 0 ;;
    now <- timer_get ;;
    if marker_time event_marker <=? now then
      event_markers_pop0 ;;; ret (Some event_marker)
    else ret None.

(** lines 69-80 *)
Definition move_to_next_path : M unit :=
  i <- gets (fun w => current_path_index (self w)) ;;
  pg <- gets (fun w => path_group (self w)) ;;
  if (length pg <=? i + 1)%nat then
    modify (with_self (put_paths_traversed true))
  else
    modify (with_self (put_current_path_index (i + 1)%nat)) ;;;
    i' <- gets (fun w => current_path_index (self w)) ;;
    p <- py_index pg i' ;;
    modify (with_self (put_current_path p)) ;;;
    elapsed <- timer_get ;;
    tt0 <- gets (fun w => total_time (self w)) ;;
    modify (with_self (put_total_time (tt0 + elapsed))) ;;;
    timer_reset ;;;
    timer_start ;;;
    modify (with_self (put_own_event_markers (Some (getMarkers p)))) ;;;
    modify (with_self (put_stop_event (getEndStopEvent p))).

(** lines 92-98: the loop over the names of a marker. *)
Fixpoint dispatch_marker (names : list string) (m : EventMarker) : M unit :=
  match names with
  | [] => ret tt
  | name :: rest =>
      cbs <- gets (fun w => event_callbacks (klass w)) ;;
      match cbs !! name with
      | Some cb =>
          call_marker_callback name cb m ;;;
          del_event_callback name ;;;
          dispatch_marker rest m
      | None => dispatch_marker rest m
      end
  end.

(** lines 100-102: the loop over [self.stop_event_callbacks].  A Python list
    iterator holds an index into the list and reads the list anew at every
    step, so the removals of the body are seen by the loop; [i] is that
    index.  [fuel] bounds the number of steps; the list's length is
    enough. *)
Fixpoint dispatch_stop (fuel : nat) (i : nat) : M unit :=
  match fuel with
  | O => ret tt
  | S fuel' =>
      l <- gets (fun w => stop_event_callbacks (klass w)) ;;
      match l !! i with
      | None => ret tt
      | Some stop_callback =>
          s <- gets (fun w => stop_event (self w)) ;;
          call_stop_callback stop_callback s ;;;
          stop_event_callbacks_remove stop_callback ;;;
          dispatch_stop fuel' (S i)
      end
  end.

(** lines 84-107 *)
Definition sample : M (option PathPlannerState) :=
  exhausted <- gets (fun w => paths_traversed (self w)) ;;
  if exhausted : bool then ret None
  else
    p <- gets (fun w => current_path (self w)) ;;
    let duration := getTotalTime p in
    now <- timer_get ;;
    event_marker <- get_new_event_marker ;;
    match event_marker with
    | Some m => dispatch_marker (marker_names m) m
    | None => ret tt
    end ;;;
    (if duration <? now then
       l <- gets (fun w => stop_event_callbacks (klass w)) ;;
       dispatch_stop (length l) 0 ;;;
       move_to_next_path
     else ret tt) ;;;
    n <- gets (fun w => iterations (self w)) ;;
    modify (with_self (put_iterations (n + 1)%nat)) ;;;
    p' <- gets (fun w => current_path (self w)) ;;
    ret (Some (trajectory_sample p' now)).

(** lines 109-112 *)
Definition on (name : string) (func : callback) : M unit :=
  modify (with_klass (fun c =>
    put_event_callbacks (<[name := func]> (event_callbacks c)) c)).

(** lines 114-115 *)
Definition on_stop (func : callback) : M unit :=
  modify (with_klass (fun c =>
    put_stop_event_callbacks (stop_event_callbacks c ++ [func]) c)).

(** lines 26-39.  [loaded] is what [PathPlanner.loadPathGroup] returned; the
    method runs on the new object, [new_object], none of whose attributes is
    assigned yet. *)
Definition unset_state : PathPlannerState :=
  {| state_time := 0; state_pose := {| pose_x := 0; pose_y := 0; pose_rotation := 0 |};
     state_velocity := 0; state_holonomicRotation := 0 |}.

Definition unset_stop_event : StopEvent :=
  {| waitBehavior := 0%nat; stop_names := []; waitTime := 0 |}.

Definition unset_path : PathPlannerTrajectory :=
  {| getTotalTime := 0; getMarkers := []; getEndStopEvent := unset_stop_event;
     getInitialState := unset_state; getEndState := unset_state;
     trajectory_sample := fun _ => unset_state |}.

Definition put_path_group (v : list PathPlannerTrajectory) (s : PathTraverser) :=
  {| path_group := v; current_path_index := current_path_index s;
     current_path := current_path s; stop_event := stop_event s;
     current_path_initial_state := current_path_initial_state s;
     timer := timer s; paths_traversed := paths_traversed s;
     total_time := total_time s; iterations := iterations s;
     own_event_markers := own_event_markers s |}.

Definition new_object : PathTraverser :=
  {| path_group := []; current_path_index := 0%nat;
     current_path := unset_path; stop_event := unset_stop_event;
     current_path_initial_state := asWPILibState unset_state;
     timer := Timer.make 0; paths_traversed := false;
     total_time := 0; iterations := 0%nat;
     own_event_markers := None |}.

Definition PathTraverser_init (loaded : list PathPlannerTrajectory) : M unit :=
  first <- py_index loaded 0 ;;
  let start_pose := getInitialPose first in
  final <- py_last loaded ;;
  let end_pose := state_pose (getEndState final) in
  modify (with_self (put_path_group loaded)) ;;;
  reset.

(** ** The heap: several instances of one class *)

Record Heap := {
  h_fpga : Z;
  h_klass : PathTraverserClass;
  h_objects : list PathTraverser;
  h_log : list Event
}.

Definition frame (h : Heap) (s : PathTraverser) : World :=
  {| fpga := h_fpga h; klass := h_klass h; self := s; log := h_log h |}.

(** [PathTraverser(name)]: the reference to the new instance, or the
    exception of [__init__], in which case no instance exists. *)
Definition construct (loaded : list PathPlannerTrajectory) (h : Heap)
  : result nat * Heap :=
  match PathTraverser_init loaded (frame h new_object) with
  | (Ok _, w) =>
      (Ok (length (h_objects h)),
       {| h_fpga := fpga w; h_klass := klass w;
          h_objects := h_objects h ++ [self w]; h_log := log w |})
  | (Raise e, w) =>
      (Raise e,
       {| h_fpga := fpga w; h_klass := klass w;
          h_objects := h_objects h; h_log := log w |})
  end.

(** [r.method(...)] for a reference [r]. *)
Definition call {A} (r : nat) (m : M A) (h : Heap) : result A * Heap :=
  match h_objects h !! r with
  | Some s =>
      let (res, w) := m (frame h s) in
      (res, {| h_fpga := fpga w; h_klass := klass w;
               h_objects := <[r := self w]> (h_objects h); h_log := log w |})
  | None => (Raise AttributeError, h)
  end.

(** [r.event_markers], read. *)
Definition event_markers_of (r : nat) (h : Heap) : option (list EventMarker) :=
  s ← h_objects h !! r; Some (the_event_markers (frame h s)).

(** ** Runs *)

(** What the command layer and the environment do to a traverser. *)
Inductive Op :=
| Advance (d : Z)
| StartTimer
| Sample
| On (name : string) (func : callback)
| OnStop (func : callback)
| Reset.

Inductive Obs :=
| Sampled (r : result (option PathPlannerState))
| Finished (r : result unit).

Definition advance (d : Z) (w : World) : World :=
  {| fpga := fpga w + d; klass := klass w; self := self w; log := log w |}.

Definition step (o : Op) (w : World) : Obs * World :=
  match o with
  | Advance d => (Finished (Ok tt), advance d w)
  | StartTimer => let (r, w') := start_timer w in (Finished r, w')
  | Sample => let (r, w') := sample w in (Sampled r, w')
  | On name func => let (r, w') := on name func w in (Finished r, w')
  | OnStop func => let (r, w') := on_stop func w in (Finished r, w')
  | Reset => let (r, w') := reset w in (Finished r, w')
  end.

Fixpoint run (ops : list Op) (w : World) : list Obs * World :=
  match ops with
  | [] => ([], w)
  | o :: ops' =>
      let (ob, w1) := step o w in
      let (obs, w2) := run ops' w1 in
      (ob :: obs, w2)
  end.

(** The observable trace of a run: what the calls returned and which
    callbacks were called. *)
Definition trace (ops : list Op) (w : World) : list Obs * list Event :=
  let (obs, w') := run ops w in (obs, log w').

(** One tick of [SwerveAutoCommand.execute] (lines 198-200), [d] after the
    previous one. *)
Definition execute_tick (d : Z) : list Op := [Advance d; StartTimer; Sample].

(** * The steps as functions on worlds *)

(** The methods above are programs in the monad.  The functions below say
    what the same steps do to a world; the section on properties proves
    that the programs compute them. *)

(** The reading of the instance's timer. *)
Definition reading (w : World) : Z := Timer.get (fpga w) (timer (self w)).

(** The bindings left and the calls made by the loop over the names of a
    marker. *)
Fixpoint marker_dispatch (names : list string) (m : EventMarker)
  (cbs : gmap string callback) : gmap string callback * list Event :=
  match names with
  | [] => (cbs, [])
  | name :: rest =>
      match cbs !! name with
      | Some cb =>
          let (cbs', evs) := marker_dispatch rest m (delete name cbs) in
          (cbs', MarkerCall name cb m :: evs)
      | None => marker_dispatch rest m cbs
      end
  end.

(** The callbacks left and the calls made by the loop over the stop-event
    callbacks, started at index [i]. *)
Fixpoint stop_dispatch (fuel i : nat) (s : StopEvent) (l : list callback)
  : list callback * list Event :=
  match fuel with
  | O => (l, [])
  | S fuel' =>
      match l !! i with
      | None => (l, [])
      | Some cb =>
          let (r, evs) :=
            stop_dispatch fuel' (S i) s (default l (remove_first cb l)) in
          (r, StopCall cb s :: evs)
      end
  end.

(** lines 90-98 as a function on worlds. *)
Definition after_marker (w : World) : World :=
  match the_event_markers w with
  | [] => w
  | m :: rest =>
      if marker_time m <=? reading w then
        let w1 := mutate_event_markers rest w in
        let d := marker_dispatch (marker_names m) m (event_callbacks (klass w1)) in
        with_log (fun l => l ++ d.2) (with_klass (put_event_callbacks d.1) w1)
      else w
  end.

(** lines 100-102 as a function on worlds. *)
Definition after_stop (w : World) : World :=
  let l := stop_event_callbacks (klass w) in
  let d := stop_dispatch (length l) 0 (stop_event (self w)) l in
  with_log (fun lg => lg ++ d.2) (with_klass (put_stop_event_callbacks d.1) w).

(** The instance after lines 73-80, for the next segment [p]. *)
Definition enter_path (now : Z) (p : PathPlannerTrajectory) (s : PathTraverser)
  : PathTraverser :=
  {| path_group := path_group s;
     current_path_index := (current_path_index s + 1)%nat;
     current_path := p;
     stop_event := getEndStopEvent p;
     current_path_initial_state := current_path_initial_state s;
     timer := Timer.start now (Timer.reset now (timer s));
     paths_traversed := paths_traversed s;
     total_time := total_time s + Timer.get now (timer s);
     iterations := iterations s;
     own_event_markers := Some (getMarkers p) |}.

(** lines 69-80 as a function on worlds. *)
Definition after_move (w : World) : World :=
  match path_group (self w) !! (current_path_index (self w) + 1)%nat with
  | None => with_self (put_paths_traversed true) w
  | Some p => with_self (enter_path (fpga w) p) w
  end.

(** The world after the body of [sample], before [iterations] is counted. *)
Definition after_dispatch (w : World) : World :=
  if getTotalTime (current_path (self w)) <? reading w
  then after_move (after_stop (after_marker w))
  else after_marker w.

(** The instance after lines 42-52, for the first segment [p]. *)
Definition reset_to (now : Z) (p : PathPlannerTrajectory) (s : PathTraverser)
  : PathTraverser :=
  {| path_group := path_group s;
     current_path_index := 0%nat;
     current_path := p;
     stop_event := getEndStopEvent p;
     current_path_initial_state := asWPILibState (getInitialState p);
     timer := Timer.make now;
     paths_traversed := false;
     total_time := 0;
     iterations := 0%nat;
     own_event_markers := own_event_markers s |}.

(** The calls made for the marker at the head of the pending list. *)
Definition marker_events (w : World) : list Event :=
  match the_event_markers w with
  | [] => []
  | m :: _ =>
      if marker_time m <=? reading w
      then (marker_dispatch (marker_names m) m (event_callbacks (klass w))).2
      else []
  end.

(** The bindings that the marker step leaves. *)
Definition marker_bindings (w : World) : gmap string callback :=
  match the_event_markers w with
  | [] => event_callbacks (klass w)
  | m :: _ =>
      if marker_time m <=? reading w
      then (marker_dispatch (marker_names m) m (event_callbacks (klass w))).1
      else event_callbacks (klass w)
  end.

(** The pending markers that the marker step leaves. *)
Definition marker_pending (w : World) : list EventMarker :=
  match the_event_markers w with
  | [] => []
  | m :: rest => if marker_time m <=? reading w then rest else m :: rest
  end.

(** The calls of stop-event callbacks made by a call of [sample] that finds
    the list [l] registered. *)
Definition stop_events (w : World) : list Event :=
  if getTotalTime (current_path (self w)) <? reading w
  then (stop_dispatch (length (stop_event_callbacks (klass w))) 0
          (stop_event (self w)) (stop_event_callbacks (klass w))).2
  else [].

Definition stop_remaining (w : World) : list callback :=
  if getTotalTime (current_path (self w)) <? reading w
  then (stop_dispatch (length (stop_event_callbacks (klass w))) 0
          (stop_event (self w)) (stop_event_callbacks (klass w))).1
  else stop_event_callbacks (klass w).

(** The events that a call of [sample] in [w] appends to the log. *)
Definition sample_events (w : World) : list Event :=
  drop (length (log w)) (log (sample w).2).

(** ** Reading the log *)

Definition is_call_under (name : string) (e : Event) : bool :=
  match e with
  | MarkerCall n _ _ => bool_decide (n = name)
  | StopCall _ _ => false
  end.

(** The calls of callbacks bound under [name], among [evs]. *)
Definition calls_under (name : string) (evs : list Event) : list Event :=
  List.filter (is_call_under name) evs.

Definition is_marker_call (e : Event) : bool :=
  match e with
  | MarkerCall _ _ _ => true
  | StopCall _ _ => false
  end.

(** The elements at the even positions 0, 2, 4, ... of a list, and those at
    the odd positions. *)
Fixpoint evens {A} (l : list A) : list A :=
  match l with
  | [] => []
  | x :: l' => x :: match l' with [] => [] | _ :: l'' => evens l'' end
  end.

Fixpoint odds {A} (l : list A) : list A :=
  match l with
  | [] => []
  | _ :: l' => match l' with [] => [] | y :: l'' => y :: odds l'' end
  end.

Definition sentinel_obs (o : Op) : Obs :=
  match o with
  | Sample => Sampled (Ok None)
  | _ => Finished (Ok tt)
  end.

(** ** Reachable worlds *)

(** The sum of the total durations of the segments in [l]. *)
Definition durations (l : list PathPlannerTrajectory) : Z :=
  foldr (fun p acc => getTotalTime p + acc) 0 l.

(** The segments before the current one. *)
Definition completed (w : World) : list PathPlannerTrajectory :=
  take (current_path_index (self w)) (path_group (self w)).

(** The worlds that a constructed traverser can be in. *)
Inductive reachable : World -> Prop :=
| reachable_init loaded w0 w :
    self w0 = new_object ->
    PathTraverser_init loaded w0 = (Ok tt, w) -> reachable w
| reachable_step o w : reachable w -> reachable (step o w).2.

(** What holds of the position in every reachable world. *)
Definition position_ok (w : World) : Prop :=
  path_group (self w) !! current_path_index (self w) = Some (current_path (self w)) /\
  durations (completed w) <= total_time (self w) /\
  ((0 < current_path_index (self w))%nat ->
   durations (completed w) < total_time (self w)).

(** ** Several traversers *)

(** What the command layer does to the traverser [r]; [Advance] moves the
    clock, which all share. *)
Definition h_step (r : nat) (o : Op) (h : Heap) : result Obs * Heap :=
  call r (fun w => let (ob, w') := step o w in (Ok ob, w')) h.

Fixpoint h_run (ops : list (nat * Op)) (h : Heap) : Heap :=
  match ops with
  | [] => h
  | (r, o) :: ops' => h_run ops' (h_step r o h).2
  end.

(** ** Statements of the specification that the code does not meet *)

(** C1 as the specification states it, for the call of [sample] in [w]. *)
Definition processes_all_due_markers (w : World) : Prop :=
  forall m, m ∈ the_event_markers w -> marker_time m <= reading w ->
    (m ∉ the_event_markers (sample w).2) /\
    forall name cb, name ∈ marker_names m ->
      event_callbacks (klass w) !! name = Some cb ->
      calls_under name (sample_events w) = [MarkerCall name cb m].

(** C5 as the specification states it, for a traverser whose first segment
    is [p]. *)
Definition reset_as_specified (p : PathPlannerTrajectory) (w : World) : Prop :=
  let w' := (reset w).2 in
  current_path_index (self w') = 0%nat /\
  total_time (self w') = 0 /\ reading w' = 0 /\
  paths_traversed (self w') = false /\
  the_event_markers w' = getMarkers p /\
  stop_event (self w') = getEndStopEvent p /\
  Timer.m_running (timer (self w')) = true.

(** C4 as the specification states it: the time elapsed in all is the sum of
    the durations of the completed segments plus the time elapsed in the
    current segment. *)
Definition total_is_sum_of_durations (w : World) : Prop :=
  total_time (self w) + reading w = durations (completed w) + reading w.

(** The part of C6 that fails, as stated: all instances have one and the same
    list of pending markers. *)
Definition pending_markers_shared (h : Heap) : Prop :=
  forall a b la lb,
    event_markers_of a h = Some la -> event_markers_of b h = Some lb -> la = lb.

(** ** A path group of two segments, for the examples *)

Definition ex_state (t : Z) : PathPlannerState :=
  {| state_time := t;
     state_pose := {| pose_x := t; pose_y := 0; pose_rotation := 0 |};
     state_velocity := 1; state_holonomicRotation := 0 |}.

Definition ex_stop (n : nat) : StopEvent :=
  {| waitBehavior := n; stop_names := []; waitTime := 0 |}.

Definition ex_m1 : EventMarker :=
  {| marker_names := ["m1"%string]; marker_time := 1000 |}.

Definition ex_ma : EventMarker :=
  {| marker_names := ["a"%string]; marker_time := 100 |}.

Definition ex_mb : EventMarker :=
  {| marker_names := ["b"%string]; marker_time := 200 |}.

(** Segment 0 lasts 2000 ticks and has the marker "m1" at 1000; segment 1
    lasts 1000 ticks and has the markers "a" at 100 and "b" at 200. *)
Definition ex_seg0 : PathPlannerTrajectory :=
  {| getTotalTime := 2000; getMarkers := [ex_m1]; getEndStopEvent := ex_stop 0;
     getInitialState := ex_state 0; getEndState := ex_state 2000;
     trajectory_sample := ex_state |}.

Definition ex_seg1 : PathPlannerTrajectory :=
  {| getTotalTime := 1000; getMarkers := [ex_ma; ex_mb];
     getEndStopEvent := ex_stop 1;
     getInitialState := ex_state 2000; getEndState := ex_state 3000;
     trajectory_sample := fun t => ex_state (2000 + t) |}.

Definition ex_class : PathTraverserClass :=
  {| event_callbacks := ∅; stop_event_callbacks := []; event_markers := [] |}.

(** The world before the first traverser is constructed. *)
Definition ex_boot : World :=
  {| fpga := 0; klass := ex_class; self := new_object; log := [] |}.

(** The world after [PathTraverser(...)] loaded the two segments. *)
Definition ex_constructed : World :=
  (PathTraverser_init [ex_seg0; ex_seg1] ex_boot).2.

(** Callbacks 1 and 2 are bound to "a" and "b"; the first segment is left at
    2500 ticks; 500 ticks into the second segment both of its markers are
    due.  The world just before [sample] is called there. *)
Definition ex_two_due : World :=
  (run ([On "a"%string 1%nat; On "b"%string 2%nat] ++ execute_tick 0
        ++ execute_tick 2500 ++ [Advance 500; StartTimer]) ex_constructed).2.

(** A callback is bound to "m1", the marker of the first segment, and the
    traverser is sampled every 500 ticks up to the end of that segment. *)
Definition ex_first_segment : World :=
  (run ([On "m1"%string 9%nat] ++ execute_tick 0 ++ execute_tick 500
        ++ execute_tick 500 ++ execute_tick 500 ++ execute_tick 500)
     ex_constructed).2.

(** Callbacks 1 and 2 are registered for stop events, and the timer passes
    the end of the first segment.  The world just before [sample] is
    called. *)
Definition ex_two_stops : World :=
  (run ([OnStop 1%nat; OnStop 2%nat] ++ execute_tick 0
        ++ [Advance 2500; StartTimer]) ex_constructed).2.

(** The timer is 1500 ticks into the second and last segment, which lasts
    1000.  The world just before [sample] is called. *)
Definition ex_last_crossing : World :=
  (run (execute_tick 0 ++ execute_tick 2500 ++ [Advance 1500; StartTimer])
     ex_constructed).2.

(** The world after the first segment was left at 2500 ticks. *)
Definition ex_after_crossing : World :=
  (run (execute_tick 0 ++ execute_tick 2500) ex_constructed).2.

Definition ex_heap : Heap :=
  {| h_fpga := 0; h_klass := ex_class; h_objects := []; h_log := [] |}.

(** Two traversers over the same two segments, references 0 and 1. *)
Definition ex_two_traversers : Heap :=
  (construct [ex_seg0; ex_seg1] (construct [ex_seg0; ex_seg1] ex_heap).2).2.

(** Both traversers leave the first segment at 2500 ticks; 500 ticks later
    traverser 0 is sampled and takes the marker "a". *)
Definition ex_one_consumed : Heap :=
  h_run [(0, On "a"%string 1); (0, StartTimer); (1, StartTimer);
         (0, Advance 2500); (0, Sample); (1, Sample);
         (0, Advance 500); (0, Sample)]%nat ex_two_traversers.

(** * [SwerveAutoCommand] (lines 118-222) *)

(** The command owns a traverser and a [finished] flag, and drives the swerve
    subsystem.  The subsystem, the drive controller and the kinematics are
    other modules: a call of the subsystem is recorded, in [drive], with the
    value the command passes or, for [set_module_states], with the desired
    state that [move_to_state] hands to the controller.  [print] and
    [print_async] are left out. *)
Inductive DriveCall :=
| ResetOdometer (pose : option Pose2d)
| ResetGyro
| SetModuleStates (desired : PathPlannerState).

(** [traverser_world] is the world of [self.traverser]: the instance, the
    class attributes it shares, the clock and the log of callbacks. *)
Record CommandWorld := {
  traverser_world : World;
  finished : bool;
  drive : list DriveCall
}.

Module SwerveAutoCommand.

Definition C (A : Type) : Type := CommandWorld -> result A * CommandWorld.

Definition cret {A} (a : A) : C A := fun c => (Ok a, c).

Definition cbind {A B} (m : C A) (k : A -> C B) : C B :=
  fun c => match m c with
           | (Ok a, c') => k a c'
           | (Raise e, c') => (Raise e, c')
           end.

(** A method of [self.traverser]. *)
Definition lift {A} (m : M A) : C A :=
  fun c =>
    let (r, w) := m (traverser_world c) in
    (r, {| traverser_world := w; finished := finished c; drive := drive c |}).

Definition put_finished (b : bool) : C unit :=
  fun c =>
    (Ok tt, {| traverser_world := traverser_world c; finished := b;
               drive := drive c |}).

(** A method of [self.swerve_subsystem]. *)
Definition subsystem (d : DriveCall) : C unit :=
  fun c =>
    (Ok tt, {| traverser_world := traverser_world c; finished := finished c;
               drive := drive c ++ [d] |}).

Declare Scope cmd_scope.
Delimit Scope cmd_scope with cmd.
Notation "x <- c ;; k" := (cbind c (fun x => k))
  (at level 100, c at next level, right associativity) : cmd_scope.
Notation "c ;;; k" := (cbind c (fun _ => k))
  (at level 100, right associativity) : cmd_scope.

(** lines 119-151.  [loaded] is the path group "Spin_90" as
    [PathPlanner.loadPathGroup] returns it, [handle_stop] the closure of
    lines 138-147, which only prints. *)
Definition init (loaded : list PathPlannerTrajectory) (handle_stop : callback)
  : C unit :=
  (lift (PathTraverser_init loaded) ;;;
   lift (on_stop handle_stop) ;;;
   put_finished false)%cmd.

(** lines 153-160 *)
Definition initialize : C unit :=
  (put_finished false ;;;
   subsystem (ResetOdometer None) ;;;
   subsystem ResetGyro ;;;
   lift reset ;;;
   state <- lift get_initial_state ;;
   subsystem (ResetOdometer (Some (wpi_pose state))))%cmd.

(** lines 171-194 *)
Definition move_to_state (state : PathPlannerState) : C unit :=
  subsystem (SetModuleStates state).

(** lines 208-219 *)
Definition end_ (interrupted : bool) : C unit :=
  if negb interrupted then put_finished true else cret tt.

(** lines 198-206 *)
Definition execute : C unit :=
  (lift start_timer ;;;
   state <- lift sample ;;
   match state with
   | None => end_ false
   | Some s => move_to_state s
   end)%cmd.

(** lines 221-222 *)
Definition isFinished (c : CommandWorld) : bool := finished c.

End SwerveAutoCommand.

(** What the command scheduler and the environment do to a command. *)
Inductive CommandOp :=
| CmdAdvance (d : Z)
| CmdInitialize
| CmdExecute
| CmdEnd (interrupted : bool).

Definition command_step (o : CommandOp) (c : CommandWorld) : CommandWorld :=
  match o with
  | CmdAdvance d =>
      {| traverser_world := advance d (traverser_world c);
         finished := finished c; drive := drive c |}
  | CmdInitialize => (SwerveAutoCommand.initialize c).2
  | CmdExecute => (SwerveAutoCommand.execute c).2
  | CmdEnd interrupted => (SwerveAutoCommand.end_ interrupted c).2
  end.

Definition command_run (ops : list CommandOp) (c : CommandWorld) : CommandWorld :=
  foldl (fun c o => command_step o c) c ops.

(** ** More vocabulary for the properties *)

(** The number of calls of [sample] that returned a state. *)
Definition count_states (obs : list Obs) : nat :=
  length (List.filter
            (fun ob => match ob with Sampled (Ok (Some _)) => true | _ => false end)
            obs).

(** The number of calls of [sample] in a run. *)
Definition count_samples (ops : list Op) : nat :=
  length (List.filter
            (fun o => match o with Sample => true | _ => false end) ops).

(** The events that a run appends to the log. *)
Definition run_events (ops : list Op) (w : World) : list Event :=
  drop (length (log w)) (log (run ops w).2).

Definition registers (name : string) (o : Op) : Prop :=
  match o with
  | On n _ => n = name
  | _ => False
  end.

(** The marker [m] is a marker of a segment other than the first one of the
    path group. *)
Definition from_later_segment (w : World) (m : EventMarker) : Prop :=
  exists i p, (0 < i)%nat /\ path_group (self w) !! i = Some p /\
              m ∈ getMarkers p.

(** The class-level marker list is empty, and what is pending in the
    instance's own list comes from later segments. *)
Definition later_markers_only (w : World) : Prop :=
  event_markers (klass w) = [] /\
  forall l, own_event_markers (self w) = Some l ->
            forall m, m ∈ l -> from_later_segment w m.

(** What holds of a traverser in every reachable world. *)
Definition traverser_ok (w : World) : Prop :=
  let s := self w in
  path_group s !! current_path_index s = Some (current_path s) /\
  stop_event s = getEndStopEvent (current_path s) /\
  (paths_traversed s = true ->
   (current_path_index s + 1)%nat = length (path_group s)).

(** The command over the two segments of the examples, just constructed, with
    callback 5 as its [handle_stop]. *)
Definition ex_command : CommandWorld :=
  (SwerveAutoCommand.init [ex_seg0; ex_seg1] 5%nat
     {| traverser_world := ex_boot; finished := false; drive := [] |}).2.

(** The world of the examples 500 ticks into the second segment, with no
    callback bound: the marker "a" is due. *)
Definition ex_unbound_due : World :=
  (run (execute_tick 0 ++ execute_tick 2500 ++ [Advance 500; StartTimer])
     ex_constructed).2.

(** The world of the examples on the tick that leaves the first segment:
    the timer reads 2500. *)
Definition ex_leaving : World :=
  (run (execute_tick 0 ++ [Advance 2500; StartTimer]) ex_constructed).2.

(** The command of the examples on the tick that finds the timer 1500 ticks
    into the last segment, which lasts 1000. *)
Definition ex_command_last : CommandWorld :=
  command_run [CmdInitialize; CmdExecute; CmdAdvance 2500; CmdExecute;
               CmdAdvance 1500] ex_command.

(** A third segment, without markers, and the world of a traverser over the
    three segments that is 1500 ticks into the second one, which lasts 1000:
    both markers of the second segment are due, callbacks are bound to both,
    and a next segment exists.  The world just before [sample] is called. *)
Definition ex_seg2 : PathPlannerTrajectory :=
  {| getTotalTime := 500; getMarkers := []; getEndStopEvent := ex_stop 2;
     getInitialState := ex_state 3000; getEndState := ex_state 3500;
     trajectory_sample := fun t => ex_state (3000 + t) |}.

Definition ex_due_at_crossing : World :=
  (run ([On "a"%string 1%nat; On "b"%string 2%nat] ++ execute_tick 0
        ++ execute_tick 2500 ++ [Advance 1500; StartTimer])
     (PathTraverser_init [ex_seg0; ex_seg1; ex_seg2] ex_boot).2).2.

(** * Properties *)

(** ** What each step does, as equations *)

Lemma dispatch_marker_run names m w :
  dispatch_marker names m w =
    (Ok tt,
     with_log (fun l => l ++ (marker_dispatch names m (event_callbacks (klass w))).2)
       (with_klass
          (put_event_callbacks
             (marker_dispatch names m (event_callbacks (klass w))).1) w)).
Proof.
  revert w. induction names as [|name rest IH]; intros w; simpl.
  - unfold ret, with_log, with_klass, put_event_callbacks; simpl.
    by rewrite app_nil_r.
  - unfold bind at 1, gets at 1.
    destruct (event_callbacks (klass w) !! name) as [cb|] eqn:Hcb.
    + unfold bind at 1, call_marker_callback, modify at 1.
      unfold bind at 1, del_event_callback, bind at 1, gets at 1.
      simpl. rewrite Hcb. unfold modify at 1. rewrite IH. simpl.
      destruct (marker_dispatch rest m (delete name (event_callbacks (klass w))))
        as [cbs' evs]. simpl.
      unfold with_log, with_klass, put_event_callbacks. simpl.
      by rewrite <- app_assoc.
    + apply IH.
Qed.

Lemma marker_dispatch_unbound names m cbs name :
  cbs !! name = None ->
  calls_under name (marker_dispatch names m cbs).2 = [] /\
  (marker_dispatch names m cbs).1 !! name = None.
Proof.
  revert cbs. induction names as [|n0 rest IH]; intros cbs Hn; simpl.
  - done.
  - destruct (cbs !! n0) as [cb0|] eqn:H0; [|by apply IH].
    assert (n0 <> name) as Hne by congruence.
    specialize (IH (delete n0 cbs)).
    destruct (marker_dispatch rest m (delete n0 cbs)) as [cbs' evs] eqn:Hd.
    simpl in *. rewrite bool_decide_eq_false_2 by done.
    apply IH. by rewrite lookup_delete_ne.
Qed.

Lemma marker_dispatch_bound names m cbs name cb :
  cbs !! name = Some cb -> name ∈ names ->
  calls_under name (marker_dispatch names m cbs).2 = [MarkerCall name cb m] /\
  (marker_dispatch names m cbs).1 !! name = None.
Proof.
  revert cbs. induction names as [|n0 rest IH]; intros cbs Hn Hin.
  - by apply elem_of_nil in Hin.
  - simpl. destruct (decide (n0 = name)) as [->|Hne].
    + rewrite Hn.
      pose proof (marker_dispatch_unbound rest m (delete name cbs) name
                    (lookup_delete_eq cbs name)) as [Hc Hl].
      destruct (marker_dispatch rest m (delete name cbs)) as [cbs' evs].
      simpl in *. rewrite bool_decide_eq_true_2 by done. by rewrite Hc.
    + apply elem_of_cons in Hin as [->|Hin]; [done|].
      destruct (cbs !! n0) as [cb0|] eqn:H0; [|by apply IH].
      specialize (IH (delete n0 cbs)).
      destruct (marker_dispatch rest m (delete n0 cbs)) as [cbs' evs].
      simpl in *. rewrite bool_decide_eq_false_2 by done.
      apply IH; [by rewrite lookup_delete_ne|done].
Qed.

Lemma marker_dispatch_other names m cbs name :
  name ∉ names -> (marker_dispatch names m cbs).1 !! name = cbs !! name.
Proof.
  revert cbs. induction names as [|n0 rest IH]; intros cbs Hin; [done|].
  apply not_elem_of_cons in Hin as [Hne Hin]. simpl.
  destruct (cbs !! n0) as [cb0|] eqn:H0; [|by apply IH].
  specialize (IH (delete n0 cbs) Hin).
  destruct (marker_dispatch rest m (delete n0 cbs)) as [cbs' evs].
  simpl in *. rewrite IH. by rewrite lookup_delete_ne.
Qed.

Lemma marker_dispatch_events names m cbs e :
  e ∈ (marker_dispatch names m cbs).2 ->
  exists name cb, e = MarkerCall name cb m /\ name ∈ names /\
                  cbs !! name = Some cb.
Proof.
  revert cbs. induction names as [|n0 rest IH]; intros cbs He; simpl in He.
  - by apply elem_of_nil in He.
  - destruct (cbs !! n0) as [cb0|] eqn:H0.
    + specialize (IH (delete n0 cbs)).
      destruct (marker_dispatch rest m (delete n0 cbs)) as [cbs' evs].
      simpl in *. apply elem_of_cons in He as [->|He].
      * exists n0, cb0. split; [done|]. split; [by left|done].
      * destruct (IH He) as (name & cb & -> & Hin & Hl).
        apply lookup_delete_Some in Hl as [_ Hl].
        exists name, cb. split; [done|]. split; [by right|done].
    + destruct (IH _ He) as (name & cb & -> & Hin & Hl).
      exists name, cb. split; [done|]. split; [by right|done].
Qed.

(** The pending markers after the dispatch step of [get_new_event_marker]. *)
Lemma get_new_event_marker_run w :
  get_new_event_marker w =
    match the_event_markers w with
    | [] => (Ok None, w)
    | m :: rest =>
        if marker_time m <=? Timer.get (fpga w) (timer (self w))
        then (Ok (Some m), mutate_event_markers rest w)
        else (Ok None, w)
    end.
Proof.
  unfold get_new_event_marker, bind, gets, py_index, timer_get.
  destruct (the_event_markers w) as [|m rest] eqn:Hl; simpl; [done|].
  unfold ret. destruct (marker_time m <=? _); [|done].
  unfold event_markers_pop0, bind, gets. rewrite Hl. by unfold modify, ret.
Qed.

(** *** The loop over the stop-event callbacks *)

Section StopLoop.

(** The stop event that the callbacks are called with. *)
Variable s : StopEvent.

Lemma remove_first_elem cb l :
  cb ∈ l -> exists l', remove_first cb l = Some l' /\ length l = S (length l').
Proof.
  induction l as [|y l IH]; intros Hin; [by apply elem_of_nil in Hin|].
  simpl. destruct (decide (y = cb)) as [->|Hne]; [by eexists|].
  apply elem_of_cons in Hin as [->|Hin]; [done|].
  destruct (IH Hin) as (l' & -> & Hlen). eexists; split; [done|].
  simpl. by rewrite Hlen.
Qed.

Lemma remove_first_middle (kept : list callback) x tail :
  x ∉ kept -> remove_first x (kept ++ x :: tail) = Some (kept ++ tail).
Proof.
  induction kept as [|y kept IH]; intros Hx; simpl.
  - by rewrite decide_True.
  - apply not_elem_of_cons in Hx as [Hne Hx].
    rewrite decide_False by done. by rewrite IH.
Qed.

(** The fuel given by [sample], the length of the list, is enough: with more
    fuel the loop does the same. *)
Lemma stop_dispatch_fuel f1 : forall f2 i l,
  (length l - i <= f1)%nat -> (length l - i <= f2)%nat ->
  stop_dispatch f1 i s l = stop_dispatch f2 i s l.
Proof.
  induction f1 as [|f1 IH]; intros f2 i l H1 H2.
  - destruct f2 as [|f2]; simpl; [done|].
    rewrite (lookup_ge_None_2 l i); [done|lia].
  - destruct f2 as [|f2]; simpl.
    + rewrite (lookup_ge_None_2 l i); [done|lia].
    + destruct (l !! i) as [cb|] eqn:Hcb; [|done].
      destruct (remove_first_elem cb l) as (l' & Hl' & Hlen);
        [by eapply list_elem_of_lookup_2|].
      rewrite Hl'. simpl. rewrite (IH f2 (S i) l'); [done|lia|lia].
Qed.

Lemma stop_dispatch_events fuel : forall i l e,
  e ∈ (stop_dispatch fuel i s l).2 -> exists cb, e = StopCall cb s.
Proof.
  induction fuel as [|fuel IH]; intros i l e He; simpl in He.
  - by apply elem_of_nil in He.
  - destruct (l !! i) as [cb|]; [|by apply elem_of_nil in He].
    specialize (IH (S i) (default l (remove_first cb l)) e).
    destruct (stop_dispatch fuel (S i) s (default l (remove_first cb l))).
    simpl in *. apply elem_of_cons in He as [->|He]; [by eexists|by apply IH].
Qed.

(** When the registered callbacks are pairwise distinct, the loop of lines
    100-102 calls those at the even positions only; those at the odd
    positions are passed over and stay registered. *)
Lemma stop_dispatch_every_other fuel : forall kept tail,
  NoDup (kept ++ tail) -> (length tail <= fuel)%nat ->
  stop_dispatch fuel (length kept) s (kept ++ tail) =
    (kept ++ odds tail, map (fun cb => StopCall cb s) (evens tail)).
Proof.
  induction fuel as [|fuel IH]; intros kept tail Hnd Hlen.
  - destruct tail; [|simpl in Hlen; lia]. done.
  - simpl. destruct tail as [|x tail].
    + simpl. rewrite !app_nil_r. by rewrite lookup_ge_None_2 by lia.
    + rewrite list_lookup_middle by done.
      rewrite remove_first_middle; cycle 1.
      { apply NoDup_app in Hnd as (_ & Hd & _). intros Hin.
        apply (Hd x Hin). by left. }
      simpl.
      assert (NoDup (kept ++ tail)) as Hnd'.
      { apply NoDup_app in Hnd as (Hk & Hd & Ht). apply NoDup_app.
        split; [done|]. split.
        - intros y Hy Hy'. apply (Hd y Hy). by right.
        - by apply NoDup_cons in Ht as [_ Ht]. }
      destruct tail as [|y tail].
      * rewrite app_nil_r.
        replace (stop_dispatch fuel (S (length kept)) s kept) with (kept, @nil Event).
        { done. }
        destruct fuel; [done|]. simpl. by rewrite lookup_ge_None_2 by lia.
      * specialize (IH (kept ++ [y]) tail).
        rewrite <- app_assoc in IH. simpl in IH.
        rewrite length_app in IH. simpl in IH.
        rewrite Nat.add_1_r in IH. rewrite IH; [|done|simpl in Hlen; lia].
        by rewrite <- app_assoc.
Qed.

End StopLoop.

Lemma dispatch_stop_run fuel i w :
  dispatch_stop fuel i w =
    (Ok tt,
     with_log (fun l => l ++
        (stop_dispatch fuel i (stop_event (self w))
           (stop_event_callbacks (klass w))).2)
       (with_klass
          (put_stop_event_callbacks
             (stop_dispatch fuel i (stop_event (self w))
                (stop_event_callbacks (klass w))).1) w)).
Proof.
  revert i w. induction fuel as [|fuel IH]; intros i w; simpl.
  - unfold ret, with_log, with_klass, put_stop_event_callbacks; simpl.
    by rewrite app_nil_r.
  - unfold bind at 1, gets at 1.
    destruct (stop_event_callbacks (klass w) !! i) as [cb|] eqn:Hcb.
    + unfold bind at 1, gets at 1. unfold bind at 1, call_stop_callback, modify at 1.
      unfold bind at 1, stop_event_callbacks_remove, bind at 1, gets at 1.
      simpl.
      destruct (remove_first_elem cb (stop_event_callbacks (klass w)))
        as (l' & Hl' & _); [by eapply list_elem_of_lookup_2|].
      rewrite Hl'. unfold modify at 1. rewrite IH. simpl.
      destruct (stop_dispatch fuel (S i) (stop_event (self w)) l') as [r evs].
      simpl. unfold with_log, with_klass, put_stop_event_callbacks. simpl.
      by rewrite <- app_assoc.
    + unfold ret, with_log, with_klass, put_stop_event_callbacks; simpl.
      by rewrite app_nil_r.
Qed.

(** The loop of [sample] stops because the index has left the list, not
    because the fuel has run out: any larger fuel gives the same run. *)
Lemma dispatch_stop_fuel_enough fuel w :
  (length (stop_event_callbacks (klass w)) <= fuel)%nat ->
  dispatch_stop fuel 0 w =
    dispatch_stop (length (stop_event_callbacks (klass w))) 0 w.
Proof.
  intros Hfuel. rewrite !dispatch_stop_run.
  by rewrite (stop_dispatch_fuel (stop_event (self w)) fuel
                (length (stop_event_callbacks (klass w)))) by lia.
Qed.

Lemma move_to_next_path_run w : move_to_next_path w = (Ok tt, after_move w).
Proof.
  unfold move_to_next_path, after_move, bind, gets.
  destruct (length (path_group (self w)) <=? current_path_index (self w) + 1)%nat
    eqn:Hlen.
  - apply Nat.leb_le in Hlen. by rewrite lookup_ge_None_2.
  - apply Nat.leb_gt in Hlen.
    destruct (lookup_lt_is_Some_2 (path_group (self w))
                (current_path_index (self w) + 1)%nat Hlen) as [p Hp].
    rewrite Hp. unfold modify, py_index. simpl. rewrite Hp.
    reflexivity.
Qed.

Lemma after_marker_self_fields w :
  let s := self w in let s' := self (after_marker w) in
  fpga (after_marker w) = fpga w /\
  path_group s' = path_group s /\ current_path_index s' = current_path_index s /\
  current_path s' = current_path s /\ stop_event s' = stop_event s /\
  timer s' = timer s /\ paths_traversed s' = paths_traversed s /\
  total_time s' = total_time s /\ iterations s' = iterations s.
Proof.
  unfold after_marker, mutate_event_markers.
  destruct (the_event_markers w) as [|m rest]; [done|].
  destruct (marker_time m <=? reading w); [|done].
  by destruct (own_event_markers (self w)).
Qed.

(** [sample] never raises, and is the composition of its three steps. *)
Lemma sample_run w :
  sample w =
    if paths_traversed (self w) then (Ok None, w)
    else
      let w' := after_dispatch w in
      (Ok (Some (trajectory_sample (current_path (self w')) (reading w))),
       with_self (put_iterations (iterations (self w') + 1)%nat) w').
Proof.
  unfold sample. unfold bind at 1, gets at 1.
  destruct (paths_traversed (self w)); [done|].
  unfold bind at 1, gets at 1. unfold bind at 1, timer_get at 1, gets at 1.
  unfold bind at 1. rewrite get_new_event_marker_run.
  unfold after_dispatch. fold (reading w).
  assert (forall w1 : World,
    ((if getTotalTime (current_path (self w)) <? reading w
      then l <- gets (fun w => stop_event_callbacks (klass w));;
           dispatch_stop (length l) 0;;; move_to_next_path
      else ret tt);;;
     n <- gets (fun w => iterations (self w));;
     modify (with_self (put_iterations (n + 1)%nat));;;
     p' <- gets (fun w => current_path (self w));;
     ret (Some (trajectory_sample p' (reading w)))) w1 =
    (let w' := if getTotalTime (current_path (self w)) <? reading w
               then after_move (after_stop w1) else w1 in
     (Ok (Some (trajectory_sample (current_path (self w')) (reading w))),
      with_self (put_iterations (iterations (self w') + 1)%nat) w'))) as Htail.
  { intros w1. unfold bind at 1.
    destruct (getTotalTime (current_path (self w)) <? reading w).
    - unfold bind at 1, gets at 1. unfold bind at 1.
      rewrite dispatch_stop_run. rewrite move_to_next_path_run. done.
    - done. }
  unfold after_marker.
  destruct (the_event_markers w) as [|m rest] eqn:Hl.
  - unfold bind at 1, ret at 1. apply Htail.
  - fold (reading w). destruct (marker_time m <=? reading w).
    + unfold bind at 1. rewrite dispatch_marker_run. apply Htail.
    + unfold bind at 1, ret at 1. apply Htail.
Qed.

(** ** Frames of the three steps *)

Lemma the_event_markers_mutate l w :
  the_event_markers (mutate_event_markers l w) = l.
Proof.
  unfold the_event_markers, mutate_event_markers.
  by destruct (own_event_markers (self w)) eqn:H; simpl; [|rewrite H].
Qed.

Lemma klass_callbacks_mutate l w :
  event_callbacks (klass (mutate_event_markers l w)) = event_callbacks (klass w) /\
  stop_event_callbacks (klass (mutate_event_markers l w)) =
    stop_event_callbacks (klass w) /\
  log (mutate_event_markers l w) = log w.
Proof. unfold mutate_event_markers. by destruct (own_event_markers (self w)). Qed.

Lemma after_marker_frame w :
  log (after_marker w) = log w ++ marker_events w /\
  event_callbacks (klass (after_marker w)) = marker_bindings w /\
  stop_event_callbacks (klass (after_marker w)) = stop_event_callbacks (klass w) /\
  the_event_markers (after_marker w) = marker_pending w.
Proof.
  unfold after_marker, marker_events, marker_bindings, marker_pending.
  destruct (the_event_markers w) as [|m rest] eqn:Hl.
  - by rewrite app_nil_r.
  - destruct (marker_time m <=? reading w).
    + pose proof (klass_callbacks_mutate rest w) as (Hc & Hs & Hlg).
      pose proof (the_event_markers_mutate rest w) as Hm.
      simpl. rewrite Hc, Hlg. by repeat split.
    + by rewrite app_nil_r.
Qed.

Lemma after_move_frame w :
  log (after_move w) = log w /\ klass (after_move w) = klass w /\
  fpga (after_move w) = fpga w.
Proof.
  unfold after_move.
  by destruct (path_group (self w) !! (current_path_index (self w) + 1)%nat).
Qed.

Lemma after_dispatch_frame w :
  log (after_dispatch w) = log w ++ marker_events w ++ stop_events w /\
  event_callbacks (klass (after_dispatch w)) = marker_bindings w /\
  stop_event_callbacks (klass (after_dispatch w)) = stop_remaining w /\
  fpga (after_dispatch w) = fpga w.
Proof.
  pose proof (after_marker_frame w) as (Hlg & Hcb & Hst & _).
  pose proof (after_marker_self_fields w) as (Hf & _ & _ & _ & Hse & _).
  unfold after_dispatch, stop_events, stop_remaining.
  destruct (getTotalTime (current_path (self w)) <? reading w).
  - pose proof (after_move_frame (after_stop (after_marker w))) as (-> & -> & ->).
    unfold after_stop. simpl. rewrite Hlg, Hcb, Hst, Hse, Hf.
    by rewrite app_assoc.
  - by rewrite Hlg, Hcb, Hst, Hf, app_nil_r.
Qed.

Lemma sample_frame w :
  paths_traversed (self w) = false ->
  log (sample w).2 = log w ++ marker_events w ++ stop_events w /\
  event_callbacks (klass (sample w).2) = marker_bindings w /\
  stop_event_callbacks (klass (sample w).2) = stop_remaining w /\
  fpga (sample w).2 = fpga w.
Proof.
  intros Hpt. rewrite sample_run, Hpt. simpl. apply after_dispatch_frame.
Qed.

Lemma stop_events_are_stop_calls w e :
  e ∈ stop_events w -> is_marker_call e = false.
Proof.
  unfold stop_events. destruct (_ <? _); [|by intros ?%elem_of_nil].
  by intros [cb ->]%stop_dispatch_events.
Qed.

(** The pending markers after a call of [sample] on a traverser that is not
    exhausted. *)
Lemma sample_pending w :
  paths_traversed (self w) = false ->
  the_event_markers (sample w).2 =
    if getTotalTime (current_path (self w)) <? reading w then
      match path_group (self w) !! (current_path_index (self w) + 1)%nat with
      | Some p => getMarkers p
      | None => marker_pending w
      end
    else marker_pending w.
Proof.
  intros Hpt. rewrite sample_run, Hpt. simpl.
  pose proof (after_marker_frame w) as (_ & _ & _ & Hp).
  pose proof (after_marker_self_fields w) as (_ & Hpg & Hi & _).
  unfold after_dispatch.
  destruct (getTotalTime (current_path (self w)) <? reading w); [|done].
  unfold after_move, after_stop. simpl. rewrite Hpg, Hi.
  by destruct (path_group (self w) !! (current_path_index (self w) + 1)%nat).
Qed.

(** ** Event markers *)

Lemma sample_events_eq w :
  paths_traversed (self w) = false ->
  sample_events w = marker_events w ++ stop_events w.
Proof.
  intros Hpt. unfold sample_events.
  destruct (sample_frame w Hpt) as (-> & _). by rewrite drop_app_length.
Qed.

Lemma calls_under_no_marker_call name (l : list Event) :
  (forall e, e ∈ l -> is_marker_call e = false) -> calls_under name l = [].
Proof.
  induction l as [|e l IH]; intros H; [done|]. simpl.
  assert (is_marker_call e = false) as He by (apply H; by left).
  destruct e; [done|]. simpl. apply IH. intros e' He'. apply H. by right.
Qed.

Lemma calls_under_app name (l1 l2 : list Event) :
  calls_under name (l1 ++ l2) = calls_under name l1 ++ calls_under name l2.
Proof. apply List.filter_app. Qed.

(** The part of C1 that holds: one call of [sample] handles the marker at the
    head of the pending list. *)
Lemma sample_events_head w m rest :
  paths_traversed (self w) = false ->
  the_event_markers w = m :: rest ->
  marker_time m <= reading w ->
  marker_events w =
    (marker_dispatch (marker_names m) m (event_callbacks (klass w))).2 /\
  marker_bindings w =
    (marker_dispatch (marker_names m) m (event_callbacks (klass w))).1 /\
  marker_pending w = rest.
Proof.
  intros _ Hl Hdue. unfold marker_events, marker_bindings, marker_pending.
  rewrite Hl. apply Z.leb_le in Hdue. by rewrite Hdue.
Qed.

Lemma sample_never_raises w : exists r, (sample w).1 = Ok r.
Proof. rewrite sample_run. destruct (paths_traversed (self w)); by eexists. Qed.

Lemma sample_events_exhausted w :
  paths_traversed (self w) = true -> sample_events w = [].
Proof.
  intros Hpt. unfold sample_events. rewrite sample_run, Hpt. simpl.
  by rewrite drop_all.
Qed.

(** C1, amended: a call of [sample] on a traverser that is not exhausted
    handles the marker at the head of the pending list when its trigger time
    is at most the timer reading, and no other marker.  For each of its
    names that has a callback bound, that callback is called exactly once,
    with this marker; the bindings of all its names are gone afterwards and
    the other bindings are kept; the marker leaves the pending list.  The
    markers behind it are not handled in this call, due or not.  What
    becomes of them depends on the segment boundary: when the timer is not
    beyond the duration of the segment they stay pending, the list being the
    tail; when the call also moves to the next segment the list is replaced
    by the markers of that segment, so they are dropped without being
    handled; when the call finds no next segment they stay in the list and
    the exhausted flag is set, under which a call of [sample] handles
    nothing. *)
Theorem sample_processes_head_marker w m rest :
  paths_traversed (self w) = false ->
  the_event_markers w = m :: rest ->
  marker_time m <= reading w ->
  (forall name cb, name ∈ marker_names m ->
     event_callbacks (klass w) !! name = Some cb ->
     calls_under name (sample_events w) = [MarkerCall name cb m]) /\
  (forall e, e ∈ sample_events w -> is_marker_call e = true ->
     exists name cb, e = MarkerCall name cb m /\ name ∈ marker_names m /\
                     event_callbacks (klass w) !! name = Some cb) /\
  (forall name, name ∈ marker_names m ->
     event_callbacks (klass (sample w).2) !! name = None) /\
  (forall name, name ∉ marker_names m ->
     event_callbacks (klass (sample w).2) !! name =
       event_callbacks (klass w) !! name) /\
  the_event_markers (sample w).2 =
    (if getTotalTime (current_path (self w)) <? reading w then
       match path_group (self w) !! (current_path_index (self w) + 1)%nat with
       | Some p => getMarkers p
       | None => rest
       end
     else rest) /\
  paths_traversed (self (sample w).2) =
    (if getTotalTime (current_path (self w)) <? reading w then
       match path_group (self w) !! (current_path_index (self w) + 1)%nat with
       | Some _ => false
       | None => true
       end
     else false) /\
  (paths_traversed (self (sample w).2) = true ->
   sample_events (sample w).2 = [] /\
   the_event_markers (sample (sample w).2).2 = the_event_markers (sample w).2).
Proof.
  intros Hpt Hl Hdue.
  assert (paths_traversed (self (sample w).2) =
          (if getTotalTime (current_path (self w)) <? reading w then
             match path_group (self w) !! (current_path_index (self w) + 1)%nat
             with
             | Some _ => false
             | None => true
             end
           else false)) as Hflag.
  { rewrite sample_run, Hpt. simpl.
    pose proof (after_marker_self_fields w)
      as (_ & Hpg & Hi & _ & _ & _ & Hx & _).
    unfold after_dispatch.
    destruct (getTotalTime (current_path (self w)) <? reading w).
    - unfold after_move, after_stop. simpl. rewrite Hpg, Hi.
      destruct (path_group (self w) !! (current_path_index (self w) + 1)%nat);
        simpl; [by rewrite Hx|done].
    - by rewrite Hx. }
  assert (paths_traversed (self (sample w).2) = true ->
          sample_events (sample w).2 = [] /\
          the_event_markers (sample (sample w).2).2 =
            the_event_markers (sample w).2) as Hquiet.
  { intros Hx. split; [by apply sample_events_exhausted|].
    by rewrite (sample_run (sample w).2), Hx. }
  destruct (sample_events_head w m rest Hpt Hl Hdue) as (Hev & Hbind & Hpend).
  destruct (sample_frame w Hpt) as (_ & Hcbs & _).
  split; [|split; [|split; [|split; [|split; [|split; [exact Hflag|exact Hquiet]]]]]].
  - intros name cb Hin Hcb.
    rewrite (sample_events_eq w Hpt), Hev, calls_under_app.
    rewrite (calls_under_no_marker_call name (stop_events w))
      by apply stop_events_are_stop_calls.
    rewrite app_nil_r. by apply marker_dispatch_bound.
  - rewrite (sample_events_eq w Hpt), Hev.
    intros e [He|He]%elem_of_app Hm.
    + by apply marker_dispatch_events in He.
    + apply stop_events_are_stop_calls in He. congruence.
  - intros name Hin. rewrite Hcbs, Hbind.
    destruct (event_callbacks (klass w) !! name) as [cb|] eqn:Hcb.
    + by eapply marker_dispatch_bound.
    + by apply marker_dispatch_unbound.
  - intros name Hin. rewrite Hcbs, Hbind. by apply marker_dispatch_other.
  - by rewrite (sample_pending w Hpt), Hpend.
Qed.

(** C1 as stated fails where two markers are due at once: the second one
    stays pending and its callback is not called. *)
Lemma sample_leaves_second_due_marker :
  paths_traversed (self ex_two_due) = false /\
  ~ processes_all_due_markers ex_two_due.
Proof.
  split; [reflexivity|]. intros H.
  destruct (H ex_mb) as [Hout _].
  - right. left.
  - vm_compute. discriminate.
  - apply Hout. vm_compute. left.
Qed.

Lemma sample_processes_head_marker_witness :
  paths_traversed (self ex_two_due) = false /\
  the_event_markers ex_two_due = ex_ma :: [ex_mb] /\
  marker_time ex_ma <= reading ex_two_due /\
  calls_under "a"%string (sample_events ex_two_due) =
    [MarkerCall "a"%string 1%nat ex_ma] /\
  the_event_markers (sample ex_two_due).2 = [ex_mb].
Proof.
  assert (marker_time ex_ma <= reading ex_two_due) as Hdue
    by (vm_compute; discriminate).
  pose proof (sample_processes_head_marker ex_two_due ex_ma [ex_mb]
                eq_refl eq_refl Hdue) as (Hcalls & _ & _ & _ & Hpend & _).
  split; [reflexivity|]. split; [reflexivity|]. split; [exact Hdue|].
  split; [|exact Hpend].
  apply Hcalls; [left|reflexivity].
Defined.

(** A call that handles the head marker and also moves to the next segment
    drops the markers behind the head: "b" was due, is pending no more, was
    not called, and its binding is still there. *)
Lemma crossing_drops_markers_behind_head :
  the_event_markers ex_due_at_crossing = [ex_ma; ex_mb] /\
  marker_time ex_mb <= reading ex_due_at_crossing /\
  sample_events ex_due_at_crossing = [MarkerCall "a"%string 1%nat ex_ma] /\
  current_path (self (sample ex_due_at_crossing).2) = ex_seg2 /\
  the_event_markers (sample ex_due_at_crossing).2 = [] /\
  event_callbacks (klass (sample ex_due_at_crossing).2) !! "b"%string =
    Some 2%nat.
Proof.
  split; [reflexivity|]. split; [vm_compute; discriminate|].
  repeat split.
Qed.

(** C10: the marker step looks at the head of the pending list only, takes
    it only if its trigger time is at most the timer reading, and answers
    [None] on an empty list without raising; so a call of [sample] never
    raises, and every marker callback it calls is called with the one marker
    that was at the head of the pending list and was due. *)
Theorem sample_dispatches_at_most_one_marker w :
  get_new_event_marker w =
    match the_event_markers w with
    | [] => (Ok None, w)
    | m :: rest =>
        if marker_time m <=? reading w
        then (Ok (Some m), mutate_event_markers rest w)
        else (Ok None, w)
    end /\
  (forall l, the_event_markers (mutate_event_markers l w) = l) /\
  (exists r, (sample w).1 = Ok r) /\
  (forall name cb m, MarkerCall name cb m ∈ sample_events w ->
     exists rest, the_event_markers w = m :: rest /\ marker_time m <= reading w).
Proof.
  split; [apply get_new_event_marker_run|].
  split; [intros l; apply the_event_markers_mutate|].
  split; [apply sample_never_raises|].
  intros name cb m Hin.
  destruct (paths_traversed (self w)) eqn:Hpt.
  - rewrite sample_events_exhausted in Hin by done. by apply elem_of_nil in Hin.
  - rewrite sample_events_eq in Hin by done.
    apply elem_of_app in Hin as [Hin|Hin].
    + unfold marker_events in Hin.
      destruct (the_event_markers w) as [|m0 rest]; [by apply elem_of_nil in Hin|].
      destruct (marker_time m0 <=? reading w) eqn:Hdue;
        [|by apply elem_of_nil in Hin].
      apply marker_dispatch_events in Hin as (n & c & Heq & _).
      injection Heq as _ _ ->. exists rest. split; [done|by apply Z.leb_le].
    + by apply stop_events_are_stop_calls in Hin.
Qed.

(** ** [reset] and the constructor *)

Lemma reset_run w :
  reset w =
    match path_group (self w) with
    | [] => (Raise IndexError, with_self (put_current_path_index 0%nat) w)
    | p :: _ => (Ok tt, with_self (reset_to (fpga w) p) w)
    end.
Proof.
  unfold reset, bind, gets, modify, py_index, get_initial_state. simpl.
  by destruct (path_group (self w)).
Qed.

Lemma PathTraverser_init_run loaded w :
  PathTraverser_init loaded w =
    match loaded with
    | [] => (Raise IndexError, w)
    | p :: _ =>
        (Ok tt,
         with_self (fun s => reset_to (fpga w) p (put_path_group loaded s)) w)
    end.
Proof.
  unfold PathTraverser_init, bind, py_index, py_last.
  destruct loaded as [|p l]; [done|].
  change ((p :: l) !! 0%nat) with (Some p). unfold ret at 1.
  destruct (last (p :: l)) as [q|] eqn:Hq.
  - unfold ret at 1, modify at 1. by rewrite reset_run.
  - by apply last_None in Hq.
Qed.

(** C5, amended: after a call of [reset] on a traverser over a path group
    that starts with the segment [p], the segment index is 0, the current
    segment is [p], the cumulative elapsed time is 0, the exhausted flag is
    false, the stop event is that of [p], the iteration count is 0, and the
    clock is a new timer that reads 0 and is not running; [start_timer]
    starts it. *)
Theorem reset_state w p rest :
  path_group (self w) = p :: rest ->
  let w' := (reset w).2 in
  (reset w).1 = Ok tt /\
  current_path_index (self w') = 0%nat /\
  current_path (self w') = p /\
  total_time (self w') = 0 /\
  paths_traversed (self w') = false /\
  stop_event (self w') = getEndStopEvent p /\
  iterations (self w') = 0%nat /\
  reading w' = 0 /\
  Timer.m_running (timer (self w')) = false /\
  Timer.m_running (timer (self (start_timer w').2)) = true.
Proof. intros Hpg. rewrite reset_run, Hpg. simpl. by repeat split. Qed.

Lemma reset_state_witness :
  path_group (self ex_constructed) = ex_seg0 :: [ex_seg1] /\
  current_path (self (reset ex_constructed).2) = ex_seg0 /\
  Timer.m_running (timer (self (reset ex_constructed).2)) = false.
Proof.
  pose proof (reset_state ex_constructed ex_seg0 [ex_seg1] eq_refl)
    as (_ & _ & Hp & _ & _ & _ & _ & _ & Hr & _).
  split; [reflexivity|]. split; [exact Hp|exact Hr].
Defined.

(** The markers of the first segment never become pending: the timer has
    reached the end of the segment, the marker at 1000 ticks was never
    dispatched and its callback is still bound. *)
Lemma first_segment_marker_is_never_pending :
  reading ex_first_segment = 2000 /\
  current_path (self ex_first_segment) = ex_seg0 /\
  the_event_markers ex_first_segment = [] /\
  log ex_first_segment = [] /\
  event_callbacks (klass ex_first_segment) !! "m1"%string = Some 9%nat.
Proof. repeat split. Qed.

(** C5 as stated fails: [reset] leaves the pending markers as they are (here
    the empty class-level list, not the marker of the first segment) and
    leaves the new timer stopped. *)
Lemma reset_loads_no_markers_and_starts_no_clock :
  path_group (self ex_constructed) = ex_seg0 :: [ex_seg1] /\
  getMarkers ex_seg0 = [ex_m1] /\
  the_event_markers (reset ex_constructed).2 = [] /\
  Timer.m_running (timer (self (reset ex_constructed).2)) = false /\
  ~ reset_as_specified ex_seg0 ex_constructed.
Proof.
  repeat split; try reflexivity.
  intros (_ & _ & _ & _ & Hm & _). vm_compute in Hm. discriminate.
Qed.

(** [reset] touches neither the class attributes, nor the log, nor the
    instance's own marker list. *)
Lemma reset_frame w :
  klass (reset w).2 = klass w /\ log (reset w).2 = log w /\
  fpga (reset w).2 = fpga w /\
  own_event_markers (self (reset w).2) = own_event_markers (self w) /\
  path_group (self (reset w).2) = path_group (self w).
Proof.
  rewrite reset_run.
  destruct (path_group (self w)) eqn:Hpg; simpl; by rewrite ?Hpg.
Qed.

Lemma advance_0 w : advance 0 w = w.
Proof. unfold advance. by rewrite Z.add_0_r. Qed.

(** C9: a second [reset], even some time [d] after a first one, leaves the
    very state that a single [reset] at that moment leaves; so every
    sequence of operations run afterwards returns the same states, calls the
    same callbacks and ends in the same state. *)
Theorem reset_idempotent w d ops :
  reset (advance d (reset w).2) = reset (advance d w) /\
  run ops (reset (reset w).2).2 = run ops (reset w).2 /\
  trace ops (reset (advance d (reset w).2)).2 = trace ops (reset (advance d w)).2.
Proof.
  assert (forall d, reset (advance d (reset w).2) = reset (advance d w)) as H.
  { intros d'. rewrite (reset_run w), (reset_run (advance d' w)). simpl.
    destruct (path_group (self w)) eqn:Hpg; rewrite reset_run; simpl;
      by rewrite Hpg. }
  split; [apply H|]. split; [|by rewrite H].
  pose proof (H 0) as H0. rewrite !advance_0 in H0. by rewrite H0.
Qed.

(** C8: over an empty list of segments the constructor raises at its first
    line that reads the list, before [reset] runs; no instance comes to
    exist, so the heap has no object on which [sample] could be called, and
    the class attributes, the clock and the log are as before. *)
Theorem construct_empty_raises h :
  construct [] h = (Raise IndexError, h) /\
  (forall w, PathTraverser_init [] w = (Raise IndexError, w)) /\
  (forall A (m : M A),
     (call (length (h_objects h)) m (construct [] h).2).1 = Raise AttributeError).
Proof.
  split; [done|]. split; [done|].
  intros A m. unfold call. simpl.
  by rewrite lookup_ge_None_2.
Qed.

(** Over a list that has a segment the constructor succeeds. *)
Lemma construct_nonempty p l h :
  (construct (p :: l) h).1 = Ok (length (h_objects h)) /\
  h_objects (construct (p :: l) h).2 =
    h_objects h ++ [reset_to (h_fpga h) p (put_path_group (p :: l) new_object)] /\
  h_klass (construct (p :: l) h).2 = h_klass h /\
  h_log (construct (p :: l) h).2 = h_log h.
Proof. unfold construct. rewrite PathTraverser_init_run. done. Qed.

(** ** Stop events *)

(** C2 fails on the code: with two stop-event callbacks registered, the call
    of [sample] that crosses the end of the segment calls the first one and
    removes it, and passes over the second one, which stays registered. *)
Theorem sample_skips_second_stop_callback :
  paths_traversed (self ex_two_stops) = false /\
  getTotalTime (current_path (self ex_two_stops)) < reading ex_two_stops /\
  stop_event_callbacks (klass ex_two_stops) = [1; 2]%nat /\
  sample_events ex_two_stops = [StopCall 1%nat (ex_stop 0)] /\
  stop_event_callbacks (klass (sample ex_two_stops).2) = [2%nat].
Proof. repeat split. Qed.

(** ** The end of the last segment *)

(** C3, amended: the call of [sample] that finds the timer beyond the total
    duration of the last segment sets the exhausted flag and returns a
    trajectory state, the current segment sampled at the timer reading; the
    sentinel is what the next call returns. *)
Theorem sample_last_crossing w :
  paths_traversed (self w) = false ->
  getTotalTime (current_path (self w)) < reading w ->
  (length (path_group (self w)) <= current_path_index (self w) + 1)%nat ->
  (sample w).1 = Ok (Some (trajectory_sample (current_path (self w)) (reading w))) /\
  paths_traversed (self (sample w).2) = true /\
  current_path_index (self (sample w).2) = current_path_index (self w) /\
  (sample (sample w).2).1 = Ok None.
Proof.
  intros Hpt Hlt Hlast.
  pose proof (after_marker_self_fields w) as (_ & Hpg & Hi & Hcp & _).
  assert (self (after_dispatch w) =
          put_paths_traversed true (self (after_marker w))) as Hself.
  { unfold after_dispatch. apply Z.ltb_lt in Hlt. rewrite Hlt.
    unfold after_move, after_stop. simpl. rewrite Hpg, Hi.
    by rewrite lookup_ge_None_2. }
  rewrite (sample_run (sample w).2). rewrite sample_run, Hpt. simpl.
  rewrite Hself. simpl. by rewrite Hcp, Hi.
Qed.

Lemma sample_last_crossing_witness :
  paths_traversed (self ex_last_crossing) = false /\
  getTotalTime (current_path (self ex_last_crossing)) < reading ex_last_crossing /\
  (sample ex_last_crossing).1 = Ok (Some (ex_state 3500)) /\
  paths_traversed (self (sample ex_last_crossing).2) = true.
Proof.
  assert (getTotalTime (current_path (self ex_last_crossing))
          < reading ex_last_crossing) as Hlt by reflexivity.
  assert (length (path_group (self ex_last_crossing))
          <= current_path_index (self ex_last_crossing) + 1)%nat as Hlast
    by (vm_compute; lia).
  pose proof (sample_last_crossing ex_last_crossing eq_refl Hlt Hlast)
    as (Hr & Hx & _).
  split; [reflexivity|]. split; [exact Hlt|]. split; [exact Hr|exact Hx].
Defined.

(** C3 as stated fails: at the end of the last segment the call returns a
    state, not the sentinel. *)
Lemma last_crossing_returns_state :
  paths_traversed (self ex_last_crossing) = false /\
  getTotalTime (current_path (self ex_last_crossing)) < reading ex_last_crossing /\
  path_group (self ex_last_crossing)
    !! (current_path_index (self ex_last_crossing) + 1)%nat = None /\
  ~ ((sample ex_last_crossing).1 = Ok None /\
     paths_traversed (self (sample ex_last_crossing).2) = true).
Proof.
  repeat split. intros [H _]. vm_compute in H. discriminate.
Qed.

(** ** After exhaustion *)

Lemma step_exhausted o w :
  paths_traversed (self w) = true -> o <> Reset ->
  (step o w).1 = sentinel_obs o /\ paths_traversed (self (step o w).2) = true /\
  (o = Sample -> (step o w).2 = w).
Proof.
  intros Hpt Hne. destruct o; simpl; try done.
  by rewrite sample_run, Hpt.
Qed.

(** C7: once the exhausted flag is set, every call of [sample] returns the
    sentinel [None] and changes nothing, however many calls follow and
    whatever else happens in between (the clock advancing, [start_timer],
    registrations), short of a [reset]. *)
Theorem exhausted_sample_returns_sentinel ops : forall w,
  paths_traversed (self w) = true ->
  Reset ∉ ops ->
  (run ops w).1 = map sentinel_obs ops /\
  paths_traversed (self (run ops w).2) = true.
Proof.
  induction ops as [|o ops IH]; intros w Hpt Hno; [done|].
  apply not_elem_of_cons in Hno as [Hne Hno].
  destruct (step_exhausted o w Hpt) as (Hob & Hpt' & _); [done|].
  simpl. destruct (step o w) as [ob w1]. simpl in Hob, Hpt'.
  destruct (IH w1 Hpt' Hno) as [Hobs Hpt2].
  destruct (run ops w1) as [obs w2]. simpl in *. by rewrite Hob, Hobs.
Qed.

Lemma exhausted_sample_returns_sentinel_witness :
  paths_traversed (self (sample ex_last_crossing).2) = true /\
  (run [Sample; Advance 20; StartTimer; Sample; Sample]
     (sample ex_last_crossing).2).1 =
    [Sampled (Ok None); Finished (Ok tt); Finished (Ok tt);
     Sampled (Ok None); Sampled (Ok None)].
Proof.
  split; [reflexivity|].
  apply (exhausted_sample_returns_sentinel
           [Sample; Advance 20; StartTimer; Sample; Sample]
           (sample ex_last_crossing).2 eq_refl).
  intros H. repeat (apply elem_of_cons in H as [H|H]; [discriminate|]).
  by apply elem_of_nil in H.
Defined.

(** ** Cumulative elapsed time *)

Lemma reachable_run ops : forall w, reachable w -> reachable (run ops w).2.
Proof.
  induction ops as [|o ops IH]; intros w Hw; [done|]. simpl.
  pose proof (IH _ (reachable_step o w Hw)) as H.
  destruct (step o w) as [ob w1]. simpl in H.
  destruct (run ops w1). exact H.
Qed.

Lemma durations_snoc l p : durations (l ++ [p]) = durations l + getTotalTime p.
Proof. induction l as [|q l IH]; simpl; lia. Qed.

(** What a call of [sample] on a traverser that is not exhausted does to the
    position in the path group. *)
Lemma sample_position w :
  paths_traversed (self w) = false ->
  let s := self w in let s' := self (sample w).2 in
  path_group s' = path_group s /\
  if getTotalTime (current_path s) <? reading w then
    match path_group s !! (current_path_index s + 1)%nat with
    | Some p =>
        current_path_index s' = (current_path_index s + 1)%nat /\
        current_path s' = p /\
        total_time s' = total_time s + reading w /\
        paths_traversed s' = false /\
        reading (sample w).2 = 0
    | None =>
        current_path_index s' = current_path_index s /\
        current_path s' = current_path s /\
        total_time s' = total_time s /\
        paths_traversed s' = true
    end
  else
    current_path_index s' = current_path_index s /\
    current_path s' = current_path s /\
    total_time s' = total_time s /\
    paths_traversed s' = false.
Proof.
  intros Hpt. simpl. rewrite sample_run, Hpt. simpl.
  pose proof (after_marker_self_fields w)
    as (Hf & Hpg & Hi & Hcp & _ & Htm & Hx & Htt & _).
  unfold after_dispatch.
  destruct (getTotalTime (current_path (self w)) <? reading w).
  - unfold after_move, after_stop. simpl. rewrite Hpg, Hi.
    destruct (path_group (self w) !! (current_path_index (self w) + 1)%nat).
    + simpl. rewrite Hpg, Hi, Htt, Hx, Htm, Hf. repeat split; try done.
      unfold reading. simpl. rewrite Hf, Htm.
      unfold Timer.get, Timer.start, Timer.reset.
      destruct (Timer.m_running (timer (self w))) eqn:Hrun; simpl;
        rewrite ?Hrun; lia.
    + simpl. by rewrite Hpg, Hi, Hcp, Htt.
  - by rewrite Hpg, Hi, Hcp, Htt, Hx.
Qed.

Lemma step_sample w : (step Sample w).2 = (sample w).2.
Proof. simpl. by destruct (sample w). Qed.

Lemma step_reset w : (step Reset w).2 = (reset w).2.
Proof. simpl. by destruct (reset w). Qed.

Lemma position_ok_step o w : position_ok w -> position_ok (step o w).2.
Proof.
  intros (Hcur & Hle & Hlt). destruct o; try done.
  - (* sample *)
    rewrite step_sample.
    destruct (paths_traversed (self w)) eqn:Hpt.
    { rewrite sample_run, Hpt. done. }
    pose proof (sample_position w Hpt) as [Hpg Hcase]. simpl in Hcase.
    unfold position_ok, completed. rewrite Hpg.
    destruct (getTotalTime (current_path (self w)) <? reading w) eqn:Hcross.
    + destruct (path_group (self w) !! (current_path_index (self w) + 1)%nat)
        as [p|] eqn:Hp.
      * destruct Hcase as (-> & -> & -> & _).
        apply Z.ltb_lt in Hcross. rewrite Nat.add_1_r.
        rewrite (take_S_r _ _ _ Hcur), durations_snoc.
        rewrite Nat.add_1_r in Hp. unfold completed in Hle.
        split; [done|]. split; lia.
      * by destruct Hcase as (-> & -> & -> & _).
    + by destruct Hcase as (-> & -> & -> & _).
  - (* reset *)
    rewrite step_reset, reset_run.
    destruct (path_group (self w)) as [|p l] eqn:Hpg; [done|].
    unfold position_ok, completed. simpl. rewrite Hpg. simpl.
    split; [done|]. split; lia.
Qed.

Lemma reachable_position_ok w : reachable w -> position_ok w.
Proof.
  induction 1 as [loaded w0 w H0 Hinit|o w Hw IH].
  - rewrite PathTraverser_init_run in Hinit.
    destruct loaded as [|p l]; [done|]. injection Hinit as <-.
    unfold position_ok, completed. simpl. split; [done|]. split; lia.
  - by apply position_ok_step.
Qed.

(** C4, amended: at every move to the next segment the reading of the timer
    at that moment, which is greater than the total duration of the segment
    just completed, is added to the cumulative elapsed time, the index moves
    on by one and the timer restarts at 0.  So in every reachable state the
    cumulative elapsed time is at least the sum of the durations of the
    completed segments, and greater once a segment is completed. *)
Theorem total_time_accumulates_timer_readings w :
  reachable w ->
  durations (completed w) <= total_time (self w) /\
  ((0 < current_path_index (self w))%nat ->
   durations (completed w) < total_time (self w)) /\
  (forall p,
     paths_traversed (self w) = false ->
     getTotalTime (current_path (self w)) < reading w ->
     path_group (self w) !! (current_path_index (self w) + 1)%nat = Some p ->
     total_time (self (sample w).2) = total_time (self w) + reading w /\
     current_path_index (self (sample w).2) =
       (current_path_index (self w) + 1)%nat /\
     current_path (self (sample w).2) = p /\
     reading (sample w).2 = 0 /\
     durations (completed (sample w).2) =
       durations (completed w) + getTotalTime (current_path (self w))).
Proof.
  intros Hw. destruct (reachable_position_ok w Hw) as (Hcur & Hle & Hlt).
  split; [done|]. split; [done|].
  intros p Hpt Hcross Hp.
  pose proof (sample_position w Hpt) as [Hpg Hcase]. simpl in Hcase.
  apply Z.ltb_lt in Hcross. rewrite Hcross, Hp in Hcase.
  destruct Hcase as (Hi & Hc & Ht & _ & Hr).
  repeat split; try done.
  unfold completed. rewrite Hpg, Hi, Nat.add_1_r.
  by rewrite (take_S_r _ _ _ Hcur), durations_snoc.
Qed.

Lemma ex_constructed_reachable : reachable ex_constructed.
Proof. by apply (reachable_init [ex_seg0; ex_seg1] ex_boot). Qed.

Lemma total_time_accumulates_timer_readings_witness :
  reachable ex_after_crossing /\
  durations (completed ex_after_crossing) = 2000 /\
  total_time (self ex_after_crossing) = 2500 /\
  durations (completed ex_after_crossing) < total_time (self ex_after_crossing).
Proof.
  assert (reachable ex_after_crossing) as Hr
    by apply reachable_run, ex_constructed_reachable.
  split; [exact Hr|]. split; [reflexivity|]. split; [reflexivity|].
  apply (total_time_accumulates_timer_readings ex_after_crossing Hr).
  vm_compute. lia.
Defined.

(** C4 as stated fails: the first segment lasts 2000 ticks and is left when
    the timer reads 2500; 2500 is what the cumulative elapsed time becomes. *)
Lemma total_time_exceeds_durations :
  reachable ex_after_crossing /\
  durations (completed ex_after_crossing) = 2000 /\
  total_time (self ex_after_crossing) = 2500 /\
  ~ total_is_sum_of_durations ex_after_crossing.
Proof.
  split; [apply reachable_run, ex_constructed_reachable|].
  split; [reflexivity|]. split; [reflexivity|].
  unfold total_is_sum_of_durations. vm_compute. discriminate.
Qed.

(** ** Class attributes and instance attributes *)

Lemma call_run {A} (m : M A) h a sa :
  h_objects h !! a = Some sa ->
  call a m h =
    ((m (frame h sa)).1,
     {| h_fpga := fpga (m (frame h sa)).2; h_klass := klass (m (frame h sa)).2;
        h_objects := <[a := self (m (frame h sa)).2]> (h_objects h);
        h_log := log (m (frame h sa)).2 |}).
Proof. intros Ha. unfold call. rewrite Ha. by destruct (m (frame h sa)). Qed.

Lemma after_dispatch_event_markers w :
  event_markers (klass (after_dispatch w)) =
    match own_event_markers (self w) with
    | Some _ => event_markers (klass w)
    | None => marker_pending w
    end.
Proof.
  assert (event_markers (klass (after_marker w)) =
          match own_event_markers (self w) with
          | Some _ => event_markers (klass w)
          | None => marker_pending w
          end) as Hm.
  { unfold after_marker, marker_pending, the_event_markers, mutate_event_markers.
    destruct (own_event_markers (self w)) as [l|] eqn:Hown.
    - destruct l as [|m rest]; [done|].
      by destruct (marker_time m <=? reading w).
    - destruct (event_markers (klass w)) as [|m rest] eqn:Hl; [done|].
      by destruct (marker_time m <=? reading w). }
  unfold after_dispatch.
  destruct (getTotalTime (current_path (self w)) <? reading w); [|done].
  pose proof (after_move_frame (after_stop (after_marker w))) as (_ & -> & _).
  done.
Qed.

(** C6, amended: the table of event callbacks and the list of stop-event
    callbacks are attributes of the class, shared by all instances.  A
    registration by [on] or [on_stop] through one instance, and the bindings
    and stop-event callbacks that one instance's [sample] consumes, are what
    every other instance reads; constructing a traverser and [reset] clear
    nothing.  The list of pending markers is the class's only for an
    instance that has not yet moved to a next segment: moving there gives the
    instance a list of its own, and what [sample] takes from that list no
    other instance sees. *)
Theorem class_tables_are_shared h a b sa sb :
  a <> b ->
  h_objects h !! a = Some sa ->
  h_objects h !! b = Some sb ->
  (forall name f,
     let h' := (call a (on name f) h).2 in
     h_objects h' !! b = Some sb /\
     event_callbacks (klass (frame h' sb)) !! name = Some f) /\
  (forall f,
     let h' := (call a (on_stop f) h).2 in
     h_objects h' !! b = Some sb /\
     stop_event_callbacks (klass (frame h' sb)) =
       stop_event_callbacks (h_klass h) ++ [f]) /\
  (let h' := (call a sample h).2 in
   h_objects h' !! b = Some sb /\
   (paths_traversed sa = false ->
    event_callbacks (klass (frame h' sb)) = marker_bindings (frame h sa) /\
    stop_event_callbacks (klass (frame h' sb)) = stop_remaining (frame h sa))) /\
  (forall loaded, h_klass (construct loaded h).2 = h_klass h) /\
  h_klass (call a reset h).2 = h_klass h /\
  (let h' := (call a sample h).2 in
   paths_traversed sa = false ->
   match own_event_markers sa with
   | Some _ => the_event_markers (frame h' sb) = the_event_markers (frame h sb)
   | None => event_markers (h_klass h') = marker_pending (frame h sa)
   end) /\
  (forall p,
     paths_traversed sa = false ->
     getTotalTime (current_path sa) < reading (frame h sa) ->
     path_group sa !! (current_path_index sa + 1)%nat = Some p ->
     event_markers_of a (call a sample h).2 = Some (getMarkers p)).
Proof.
  intros Hne Ha Hb.
  split; [|split; [|split; [|split; [|split; [|split]]]]].
  - intros name f. rewrite (call_run _ h a sa Ha). simpl.
    rewrite list_lookup_insert_ne by done. split; [done|].
    apply lookup_insert_eq.
  - intros f. rewrite (call_run _ h a sa Ha). simpl.
    by rewrite list_lookup_insert_ne.
  - rewrite (call_run _ h a sa Ha). simpl.
    rewrite list_lookup_insert_ne by done. split; [done|].
    intros Hpt. destruct (sample_frame (frame h sa) Hpt) as (_ & Hc & Hs & _).
    done.
  - intros loaded. unfold construct. rewrite PathTraverser_init_run.
    by destruct loaded.
  - rewrite (call_run _ h a sa Ha). simpl. apply reset_frame.
  - rewrite (call_run _ h a sa Ha). simpl. intros Hpt.
    rewrite sample_run. simpl. rewrite Hpt. simpl.
    pose proof (after_dispatch_event_markers (frame h sa)) as Hm. simpl in Hm.
    unfold the_event_markers. simpl.
    destruct (own_event_markers sa); [|done].
    by rewrite Hm.
  - intros p Hpt Hcross Hp. rewrite (call_run _ h a sa Ha).
    unfold event_markers_of. simpl.
    rewrite list_lookup_insert_eq by (by eapply lookup_lt_Some).
    simpl. f_equal.
    pose proof (sample_pending (frame h sa) Hpt) as Hpend. simpl in Hpend.
    apply Z.ltb_lt in Hcross. rewrite Hcross, Hp in Hpend.
    rewrite <- Hpend. unfold the_event_markers. simpl.
    rewrite sample_run. simpl. rewrite Hpt. simpl. 
    unfold after_dispatch. simpl. rewrite Hcross.
    unfold after_move, after_stop. simpl.
    pose proof (after_marker_self_fields (frame h sa)) as (_ & Hpg & Hi & _).
    simpl in Hpg, Hi. rewrite Hpg, Hi, Hp. done.
Qed.

Lemma class_tables_are_shared_witness :
  h_objects ex_two_traversers !! 0%nat = Some ex_constructed.(self) /\
  h_objects ex_two_traversers !! 1%nat = Some ex_constructed.(self) /\
  event_callbacks
    (klass (frame (call 0%nat (on "a"%string 7%nat) ex_two_traversers).2
              ex_constructed.(self))) !! "a"%string = Some 7%nat.
Proof.
  split; [reflexivity|]. split; [reflexivity|].
  assert (0%nat <> 1%nat) as Hne by discriminate.
  pose proof (class_tables_are_shared ex_two_traversers 0%nat 1%nat
                ex_constructed.(self) ex_constructed.(self)
                Hne eq_refl eq_refl) as (Hon & _).
  apply (Hon "a"%string 7%nat).
Defined.

(** C6 as stated fails for the pending markers: traverser 0 took the marker
    "a" from its own list; for traverser 1 that marker is still pending, and
    the list of the class is empty as it always was. *)
Lemma own_marker_list_not_shared :
  event_markers_of 0%nat ex_one_consumed = Some [ex_mb] /\
  event_markers_of 1%nat ex_one_consumed = Some [ex_ma; ex_mb] /\
  event_markers (h_klass ex_one_consumed) = [] /\
  ~ pending_markers_shared ex_one_consumed.
Proof.
  assert (event_markers_of 0%nat ex_one_consumed = Some [ex_mb]) as H0
    by reflexivity.
  assert (event_markers_of 1%nat ex_one_consumed = Some [ex_ma; ex_mb]) as H1
    by reflexivity.
  split; [exact H0|]. split; [exact H1|]. split; [reflexivity|].
  intros H. specialize (H 0%nat 1%nat _ _ H0 H1). discriminate.
Qed.

(** * Further properties of the traverser *)

(** ** Stop-event callbacks at a crossing *)

Lemma marker_events_are_marker_calls w e :
  e ∈ marker_events w -> is_marker_call e = true.
Proof.
  unfold marker_events. destruct (the_event_markers w) as [|m rest];
    [by intros ?%elem_of_nil|].
  destruct (marker_time m <=? reading w); [|by intros ?%elem_of_nil].
  by intros (name & cb & -> & _)%marker_dispatch_events.
Qed.

Lemma filter_all (f : Event -> bool) (l : list Event) :
  (forall e, e ∈ l -> f e = true) -> List.filter f l = l.
Proof.
  induction l as [|e l IH]; intros H; [done|]. simpl.
  rewrite (H e) by (by left). f_equal. apply IH. intros e' He'. apply H.
  by right.
Qed.

Lemma filter_none (f : Event -> bool) (l : list Event) :
  (forall e, e ∈ l -> f e = false) -> List.filter f l = [].
Proof.
  induction l as [|e l IH]; intros H; [done|]. simpl.
  rewrite (H e) by (by left). apply IH. intros e' He'. apply H. by right.
Qed.

(** X1: when the registered stop-event callbacks are pairwise distinct, the
    call of [sample] that finds the timer beyond the duration of the
    segment calls the callbacks at positions 0, 2, 4, ... of the list, in
    that order, each once and with the stop event of the traverser, and
    nothing else for the stop event; the callbacks at positions 1, 3, 5, ...
    are not called and are exactly those that stay registered. *)
Theorem sample_calls_every_other_stop_callback w :
  paths_traversed (self w) = false ->
  getTotalTime (current_path (self w)) < reading w ->
  NoDup (stop_event_callbacks (klass w)) ->
  List.filter (fun e => negb (is_marker_call e)) (sample_events w) =
    map (fun cb => StopCall cb (stop_event (self w)))
        (evens (stop_event_callbacks (klass w))) /\
  stop_event_callbacks (klass (sample w).2) =
    odds (stop_event_callbacks (klass w)).
Proof.
  intros Hpt Hcross Hnd. apply Z.ltb_lt in Hcross.
  destruct (sample_frame w Hpt) as (_ & _ & -> & _).
  rewrite (sample_events_eq w Hpt), List.filter_app.
  unfold stop_events, stop_remaining. rewrite Hcross.
  pose proof (stop_dispatch_every_other (stop_event (self w))
                (length (stop_event_callbacks (klass w))) []
                (stop_event_callbacks (klass w)) Hnd (le_n _)) as Hd.
  simpl in Hd. rewrite Hd. simpl. split; [|done].
  rewrite filter_none; cycle 1.
  { intros e He. by rewrite (marker_events_are_marker_calls w e He). }
  simpl. clear Hd.
  induction (evens (stop_event_callbacks (klass w))) as [|cb l IH]; [done|].
  simpl. f_equal. exact IH.
Qed.

Lemma sample_calls_every_other_stop_callback_witness :
  NoDup (stop_event_callbacks (klass ex_two_stops)) /\
  List.filter (fun e => negb (is_marker_call e)) (sample_events ex_two_stops) =
    [StopCall 1%nat (ex_stop 0)] /\
  stop_event_callbacks (klass (sample ex_two_stops).2) = [2%nat].
Proof.
  assert (NoDup (stop_event_callbacks (klass ex_two_stops))) as Hnd.
  { change (NoDup [1; 2]%nat). apply NoDup_cons. split.
    - intros H. apply list_elem_of_singleton in H. discriminate.
    - apply NoDup_singleton. }
  split; [exact Hnd|].
  exact (sample_calls_every_other_stop_callback ex_two_stops eq_refl eq_refl Hnd).
Defined.

(** ** Markers, names and bindings *)

Lemma marker_dispatch_all_unbound names m (cbs : gmap string callback) :
  (forall name, name ∈ names -> cbs !! name = None) ->
  marker_dispatch names m cbs = (cbs, []).
Proof.
  induction names as [|n rest IH]; intros H; [done|]. simpl.
  rewrite (H n) by (by left). apply IH. intros name Hin. apply H. by right.
Qed.

(** X2: a due marker at the head of the pending list none of whose names has
    a callback bound is taken off the list all the same: the call of
    [sample] calls no marker callback and leaves the table of bindings as it
    is, and the marker is no longer pending, so a callback registered under
    one of its names afterwards is not called for it. *)
Theorem sample_consumes_unbound_marker w m rest :
  paths_traversed (self w) = false ->
  the_event_markers w = m :: rest ->
  marker_time m <= reading w ->
  (forall name, name ∈ marker_names m ->
     event_callbacks (klass w) !! name = None) ->
  List.filter is_marker_call (sample_events w) = [] /\
  event_callbacks (klass (sample w).2) = event_callbacks (klass w) /\
  the_event_markers (sample w).2 =
    if getTotalTime (current_path (self w)) <? reading w then
      match path_group (self w) !! (current_path_index (self w) + 1)%nat with
      | Some p => getMarkers p
      | None => rest
      end
    else rest.
Proof.
  intros Hpt Hl Hdue Hnone.
  destruct (sample_events_head w m rest Hpt Hl Hdue) as (Hev & Hbind & Hpend).
  destruct (sample_frame w Hpt) as (_ & Hcbs & _).
  rewrite (sample_events_eq w Hpt), Hcbs, Hev, Hbind.
  rewrite (sample_pending w Hpt), Hpend.
  rewrite (marker_dispatch_all_unbound _ _ _ Hnone). simpl.
  split; [|done]. apply filter_none. apply stop_events_are_stop_calls.
Qed.

Lemma sample_consumes_unbound_marker_witness :
  the_event_markers ex_unbound_due = ex_ma :: [ex_mb] /\
  List.filter is_marker_call (sample_events ex_unbound_due) = [] /\
  the_event_markers (sample ex_unbound_due).2 = [ex_mb].
Proof.
  assert (marker_time ex_ma <= reading ex_unbound_due) as Hdue
    by (vm_compute; discriminate).
  assert (forall name, name ∈ marker_names ex_ma ->
            event_callbacks (klass ex_unbound_due) !! name = None) as Hnone.
  { intros name Hin. apply list_elem_of_singleton in Hin. by subst. }
  pose proof (sample_consumes_unbound_marker ex_unbound_due ex_ma [ex_mb]
                eq_refl eq_refl Hdue Hnone) as (Hc & _ & Hp).
  split; [reflexivity|]. split; [exact Hc|exact Hp].
Defined.

Lemma run_app ops1 ops2 w :
  (run (ops1 ++ ops2) w).2 = (run ops2 (run ops1 w).2).2.
Proof.
  revert w. induction ops1 as [|o ops1 IH]; intros w; [done|]. simpl.
  destruct (step o w) as [ob w1]. specialize (IH w1).
  destruct (run (ops1 ++ ops2) w1), (run ops1 w1). simpl in *. done.
Qed.

(** One step of a run appends to the log; without a binding for [name], and
    unless the step registers one, it appends no call under [name] and
    leaves [name] without a binding. *)
Lemma step_unbound name o w :
  event_callbacks (klass w) !! name = None -> ~ registers name o ->
  exists evs, log (step o w).2 = log w ++ evs /\
              calls_under name evs = [] /\
              event_callbacks (klass (step o w).2) !! name = None.
Proof.
  intros Hnone Hreg. destruct o.
  - exists []. by rewrite app_nil_r.
  - exists []. by rewrite app_nil_r.
  - rewrite step_sample. destruct (paths_traversed (self w)) eqn:Hpt.
    + exists []. rewrite sample_run, Hpt. by rewrite app_nil_r.
    + destruct (sample_frame w Hpt) as (Hlog & Hcbs & _).
      exists (marker_events w ++ stop_events w). split; [done|].
      rewrite Hcbs, calls_under_app.
      rewrite (calls_under_no_marker_call name (stop_events w))
        by apply stop_events_are_stop_calls.
      rewrite app_nil_r. unfold marker_events, marker_bindings.
      destruct (the_event_markers w) as [|m rest]; [done|].
      destruct (marker_time m <=? reading w); [|done].
      by apply marker_dispatch_unbound.
  - exists []. rewrite app_nil_r. split; [done|]. split; [done|]. simpl.
    rewrite lookup_insert_ne; [done|]. intros ->. by apply Hreg.
  - exists []. by rewrite app_nil_r.
  - exists []. rewrite step_reset.
    destruct (reset_frame w) as (-> & -> & _). by rewrite app_nil_r.
Qed.

Lemma run_unbound name ops : forall w,
  event_callbacks (klass w) !! name = None ->
  Forall (fun o => ~ registers name o) ops ->
  exists evs, log (run ops w).2 = log w ++ evs /\
              calls_under name evs = [] /\
              event_callbacks (klass (run ops w).2) !! name = None.
Proof.
  induction ops as [|o ops IH]; intros w Hnone Hops.
  - exists []. by rewrite app_nil_r.
  - apply Forall_cons in Hops as [Ho Hops].
    destruct (step_unbound name o w Hnone Ho) as (evs1 & Hl1 & Hc1 & Hn1).
    destruct (IH _ Hn1 Hops) as (evs2 & Hl2 & Hc2 & Hn2).
    change (o :: ops) with ([o] ++ ops). rewrite run_app.
    assert ((run [o] w).2 = (step o w).2) as ->
      by (simpl; by destruct (step o w)).
    exists (evs1 ++ evs2). rewrite Hl2, Hl1, app_assoc, calls_under_app.
    by rewrite Hc1, Hc2.
Qed.

(** X3: registration is not retroactive and nothing else binds a name: from
    a world where [name] has no callback bound, no run of operations that
    does not call [on] for [name] ever calls a callback under [name], whatever
    markers carry that name and whenever they are due; [name] is still
    without a binding at the end. *)
Theorem name_without_binding_is_never_called name ops w :
  event_callbacks (klass w) !! name = None ->
  Forall (fun o => ~ registers name o) ops ->
  calls_under name (run_events ops w) = [] /\
  event_callbacks (klass (run ops w).2) !! name = None.
Proof.
  intros Hnone Hops.
  destruct (run_unbound name ops w Hnone Hops) as (evs & Hl & Hc & Hn).
  unfold run_events. by rewrite Hl, drop_app_length.
Qed.

Lemma name_without_binding_is_never_called_witness :
  event_callbacks (klass ex_unbound_due) !! "a"%string = None /\
  calls_under "a"%string
    (run_events [Sample; On "b"%string 3%nat; Advance 100; StartTimer; Sample]
       ex_unbound_due) = [].
Proof.
  split; [reflexivity|].
  apply (name_without_binding_is_never_called "a"%string
           [Sample; On "b"%string 3%nat; Advance 100; StartTimer; Sample]
           ex_unbound_due eq_refl).
  repeat (apply Forall_cons; split; [simpl; try tauto; discriminate|]).
  apply Forall_nil_2.
Defined.

(** X4: a binding is used once.  After the call of [sample] that handled a
    due marker at the head of the pending list, no later operation calls a
    callback under any of that marker's names, also not for a later marker
    that carries the same name, until [on] is called for the name again. *)
Theorem binding_is_one_shot name ops w m rest :
  paths_traversed (self w) = false ->
  the_event_markers w = m :: rest ->
  marker_time m <= reading w ->
  name ∈ marker_names m ->
  Forall (fun o => ~ registers name o) ops ->
  calls_under name (run_events ops (sample w).2) = [] /\
  event_callbacks (klass (run ops (sample w).2).2) !! name = None.
Proof.
  intros Hpt Hl Hdue Hin Hops.
  assert (event_callbacks (klass (sample w).2) !! name = None) as Hnone.
  { destruct (sample_events_head w m rest Hpt Hl Hdue) as (_ & Hbind & _).
    destruct (sample_frame w Hpt) as (_ & -> & _). rewrite Hbind.
    destruct (event_callbacks (klass w) !! name) as [cb|] eqn:Hcb.
    - by eapply marker_dispatch_bound.
    - by apply marker_dispatch_unbound. }
  destruct (run_unbound name ops _ Hnone Hops) as (evs & Hlog & Hc & Hn).
  unfold run_events. by rewrite Hlog, drop_app_length.
Qed.

Lemma binding_is_one_shot_witness :
  the_event_markers ex_two_due = ex_ma :: [ex_mb] /\
  calls_under "a"%string (sample_events ex_two_due) =
    [MarkerCall "a"%string 1%nat ex_ma] /\
  calls_under "a"%string
    (run_events [Advance 100; StartTimer; Sample; Reset; StartTimer; Sample]
       (sample ex_two_due).2) = [].
Proof.
  assert (marker_time ex_ma <= reading ex_two_due) as Hdue
    by (vm_compute; discriminate).
  assert ("a"%string ∈ marker_names ex_ma) as Hin by left.
  split; [reflexivity|]. split; [reflexivity|].
  apply (binding_is_one_shot "a"%string
           [Advance 100; StartTimer; Sample; Reset; StartTimer; Sample]
           ex_two_due ex_ma [ex_mb] eq_refl eq_refl Hdue Hin).
  repeat (apply Forall_cons; split; [simpl; tauto|]).
  apply Forall_nil_2.
Defined.

(** X5: the last registration wins.  A second call of [on] for a name
    replaces the first binding without a trace, and a due marker with that
    name then calls the second callback, once, and not the first. *)
Theorem on_last_registration_wins w name f g m rest :
  paths_traversed (self w) = false ->
  the_event_markers w = m :: rest ->
  marker_time m <= reading w ->
  name ∈ marker_names m ->
  on name g (on name f w).2 = on name g w /\
  calls_under name (sample_events (on name g (on name f w).2).2) =
    [MarkerCall name g m].
Proof.
  intros Hpt Hl Hdue Hin.
  assert (on name g (on name f w).2 = on name g w) as Heq.
  { unfold on, modify, with_klass, put_event_callbacks. simpl.
    by rewrite insert_insert_eq. }
  split; [exact Heq|]. rewrite Heq.
  set (w' := (on name g w).2).
  assert (paths_traversed (self w') = false) as Hpt' by done.
  assert (the_event_markers w' = m :: rest) as Hl'.
  { revert Hl. unfold the_event_markers. simpl.
    by destruct (own_event_markers (self w)). }
  assert (marker_time m <= reading w') as Hdue' by done.
  destruct (sample_events_head w' m rest Hpt' Hl' Hdue') as (Hev & _).
  rewrite (sample_events_eq w' Hpt'), Hev, calls_under_app.
  rewrite (calls_under_no_marker_call name (stop_events w'))
    by apply stop_events_are_stop_calls.
  rewrite app_nil_r. apply marker_dispatch_bound; [|done].
  simpl. apply lookup_insert_eq.
Qed.

Lemma on_last_registration_wins_witness :
  the_event_markers ex_two_due = ex_ma :: [ex_mb] /\
  calls_under "a"%string
    (sample_events (on "a"%string 8%nat (on "a"%string 7%nat ex_two_due).2).2) =
    [MarkerCall "a"%string 8%nat ex_ma].
Proof.
  assert (marker_time ex_ma <= reading ex_two_due) as Hdue
    by (vm_compute; discriminate).
  assert ("a"%string ∈ marker_names ex_ma) as Hin by left.
  split; [reflexivity|].
  apply (on_last_registration_wins ex_two_due "a"%string 7%nat 8%nat ex_ma
           [ex_mb] eq_refl eq_refl Hdue Hin).
Defined.

(** ** Moving through the path group *)

(** X6: on the call of [sample] that moves to the next segment [p], the
    state returned is [p] sampled at the time read on the timer of the
    segment just left, a time beyond that segment's whole duration, although
    the timer itself has been restarted and reads 0 after the call. *)
Theorem sample_at_transition w p :
  paths_traversed (self w) = false ->
  getTotalTime (current_path (self w)) < reading w ->
  path_group (self w) !! (current_path_index (self w) + 1)%nat = Some p ->
  (sample w).1 = Ok (Some (trajectory_sample p (reading w))) /\
  current_path (self (sample w).2) = p /\
  reading (sample w).2 = 0.
Proof.
  intros Hpt Hcross Hp.
  pose proof (sample_position w Hpt) as [_ Hcase]. simpl in Hcase.
  apply Z.ltb_lt in Hcross. rewrite Hcross, Hp in Hcase.
  destruct Hcase as (_ & Hcp & _ & _ & Hr).
  split; [|done].
  revert Hcp. rewrite sample_run, Hpt. simpl. by intros ->.
Qed.

Lemma sample_at_transition_witness :
  getTotalTime (current_path (self ex_leaving)) < reading ex_leaving /\
  (sample ex_leaving).1 = Ok (Some (trajectory_sample ex_seg1 2500)) /\
  reading (sample ex_leaving).2 = 0.
Proof.
  assert (getTotalTime (current_path (self ex_leaving)) < reading ex_leaving)
    as Hcross by reflexivity.
  pose proof (sample_at_transition ex_leaving ex_seg1 eq_refl Hcross eq_refl)
    as (Hr & _ & Ht).
  split; [exact Hcross|]. split; [exact Hr|exact Ht].
Defined.

Lemma sample_iterations w :
  (sample w).1 =
    (if paths_traversed (self w) then Ok None
     else Ok (Some (trajectory_sample (current_path (self (after_dispatch w)))
                      (reading w)))) /\
  iterations (self (sample w).2) =
    if paths_traversed (self w) then iterations (self w)
    else (iterations (self w) + 1)%nat.
Proof.
  rewrite sample_run. destruct (paths_traversed (self w)); [done|]. simpl.
  split; [done|]. f_equal.
  pose proof (after_marker_self_fields w) as (_ & Hpg & Hi & _ & _ & _ & _ & _ & Hit).
  unfold after_dispatch.
  destruct (getTotalTime (current_path (self w)) <? reading w); [|done].
  unfold after_move, after_stop. simpl. rewrite Hpg, Hi.
  by destruct (path_group (self w) !! (current_path_index (self w) + 1)%nat).
Qed.

(** X7: [iterations] counts the calls of [sample] that returned a state.
    Over any run without [reset], it grows by the number of such calls; the
    calls that returned the sentinel are not counted. *)
Theorem iterations_counts_returned_states ops : forall w,
  Reset ∉ ops ->
  iterations (self (run ops w).2) =
    (iterations (self w) + count_states (run ops w).1)%nat.
Proof.
  induction ops as [|o ops IH]; intros w Hno.
  - unfold count_states. simpl. lia.
  - apply not_elem_of_cons in Hno as [Hne Hno]. simpl.
    assert (iterations (self (step o w).2) =
            (iterations (self w) + count_states [(step o w).1])%nat) as Hstep.
    { destruct o; try (unfold count_states; simpl; lia); [|done].
      rewrite step_sample.
      destruct (sample_iterations w) as [Hr ->].
      simpl. destruct (sample w) as [r w']. simpl in *. subst r.
      unfold count_states. destruct (paths_traversed (self w)); simpl; lia. }
    destruct (step o w) as [ob w1]. simpl in Hstep.
    specialize (IH w1 Hno). destruct (run ops w1) as [obs w2].
    simpl in *. rewrite IH, Hstep. unfold count_states. simpl.
    destruct ob as [[[s|]|]|]; simpl; lia.
Qed.

Lemma iterations_counts_returned_states_witness :
  iterations (self ex_last_crossing) = 2%nat /\
  count_states (run [Sample; Sample; Sample] ex_last_crossing).1 = 1%nat /\
  iterations (self (run [Sample; Sample; Sample] ex_last_crossing).2) = 3%nat.
Proof.
  split; [reflexivity|]. split; [reflexivity|].
  apply (iterations_counts_returned_states [Sample; Sample; Sample]
           ex_last_crossing).
  intros H. repeat (apply elem_of_cons in H as [H|H]; [discriminate|]).
  by apply elem_of_nil in H.
Defined.

(** The instance after a call of [sample] on a traverser that is not
    exhausted. *)
Lemma after_marker_self w :
  self (after_marker w) =
    put_own_event_markers (own_event_markers (self (after_marker w))) (self w).
Proof.
  unfold after_marker, mutate_event_markers.
  destruct (the_event_markers w) as [|m rest]; [done|].
  destruct (marker_time m <=? reading w); [|done].
  by destruct (own_event_markers (self w)).
Qed.

Lemma sample_self w :
  paths_traversed (self w) = false ->
  exists own,
    self (sample w).2 =
      put_iterations (iterations (self w) + 1)%nat
        (if getTotalTime (current_path (self w)) <? reading w then
           match path_group (self w) !! (current_path_index (self w) + 1)%nat with
           | Some p => enter_path (fpga w) p (put_own_event_markers own (self w))
           | None => put_paths_traversed true (put_own_event_markers own (self w))
           end
         else put_own_event_markers own (self w)).
Proof.
  intros Hpt. exists (own_event_markers (self (after_marker w))).
  rewrite sample_run, Hpt. simpl.
  pose proof (after_marker_self w) as Hs.
  pose proof (after_marker_self_fields w) as (Hf & _).
  remember (own_event_markers (self (after_marker w))) as own eqn:Hown.
  clear Hown. unfold after_dispatch.
  destruct (getTotalTime (current_path (self w)) <? reading w).
  - unfold after_move, after_stop. simpl. rewrite Hf, !Hs. simpl.
    destruct (path_group (self w) !! (current_path_index (self w) + 1)%nat);
      simpl; by rewrite ?Hs.
  - by rewrite !Hs.
Qed.

Lemma step_position o w :
  o <> Reset ->
  (current_path_index (self w) <= current_path_index (self (step o w).2))%nat /\
  (current_path_index (self (step o w).2) <=
     current_path_index (self w) + count_samples [o])%nat.
Proof.
  intros Hne. unfold count_samples.
  destruct o; try (simpl; lia); [|done].
  rewrite step_sample. destruct (paths_traversed (self w)) eqn:Hpt.
  - rewrite sample_run, Hpt. simpl. lia.
  - destruct (sample_self w Hpt) as [own ->].
    destruct (getTotalTime (current_path (self w)) <? reading w); [|simpl; lia].
    destruct (path_group (self w) !! (current_path_index (self w) + 1)%nat);
      simpl; lia.
Qed.

(** X8: the traverser never goes back to an earlier segment and never skips
    one.  Over any run without [reset] the segment index does not decrease,
    and it grows by at most one for each call of [sample]. *)
Theorem segment_index_never_decreases ops : forall w,
  Reset ∉ ops ->
  (current_path_index (self w) <= current_path_index (self (run ops w).2))%nat /\
  (current_path_index (self (run ops w).2) <=
     current_path_index (self w) + count_samples ops)%nat.
Proof.
  induction ops as [|o ops IH]; intros w Hno.
  - simpl. unfold count_samples. simpl. lia.
  - apply not_elem_of_cons in Hno as [Hne Hno].
    destruct (step_position o w) as [H1 H2]; [done|].
    change (o :: ops) with ([o] ++ ops). rewrite run_app.
    assert ((run [o] w).2 = (step o w).2) as ->
      by (simpl; by destruct (step o w)).
    destruct (IH (step o w).2 Hno) as [H3 H4].
    unfold count_samples in *. rewrite List.filter_app, length_app. lia.
Qed.

Lemma segment_index_never_decreases_witness :
  current_path_index (self ex_constructed) = 0%nat /\
  current_path_index
    (self (run (execute_tick 0 ++ execute_tick 2500) ex_constructed).2) = 1%nat /\
  (current_path_index (self ex_constructed) <=
   current_path_index
     (self (run (execute_tick 0 ++ execute_tick 2500) ex_constructed).2))%nat.
Proof.
  split; [reflexivity|]. split; [reflexivity|].
  apply (segment_index_never_decreases
           (execute_tick 0 ++ execute_tick 2500) ex_constructed).
  intros H. repeat (apply elem_of_cons in H as [H|H]; [discriminate|]).
  by apply elem_of_nil in H.
Defined.

Lemma traverser_ok_step o w : traverser_ok w -> traverser_ok (step o w).2.
Proof.
  intros Hok. pose proof Hok as (Hcur & Hstop & Hlast).
  destruct o; try done.
  - rewrite step_sample. destruct (paths_traversed (self w)) eqn:Hpt.
    { rewrite sample_run, Hpt. exact Hok. }
    destruct (sample_self w Hpt) as [own Hs].
    unfold traverser_ok. rewrite Hs.
    destruct (getTotalTime (current_path (self w)) <? reading w).
    + destruct (path_group (self w) !! (current_path_index (self w) + 1)%nat)
        as [p|] eqn:Hp; simpl.
      * split; [done|]. split; [done|]. by rewrite Hpt.
      * split; [done|]. split; [done|]. intros _.
        apply lookup_ge_None_1 in Hp. apply lookup_lt_Some in Hcur. lia.
    + simpl. split; [done|]. split; [done|]. by rewrite Hpt.
  - rewrite step_reset, reset_run.
    destruct (path_group (self w)) as [|p l] eqn:Hpg; [done|].
    unfold traverser_ok. simpl. by rewrite Hpg.
Qed.

(** X9: in every world that a constructed traverser can reach, the current
    segment is the element of the path group at the segment index (so the
    index is within the group), the stop event is the end stop event of the
    current segment, the exhausted flag is set only on the last segment, and
    [reset] does not raise. *)
Theorem reachable_traverser_ok w :
  reachable w ->
  traverser_ok w /\
  (current_path_index (self w) < length (path_group (self w)))%nat /\
  (reset w).1 = Ok tt.
Proof.
  intros Hw.
  assert (traverser_ok w) as Hok.
  { induction Hw as [loaded w0 w H0 Hinit|o w Hw IH].
    - rewrite PathTraverser_init_run in Hinit.
      destruct loaded as [|p l]; [done|]. injection Hinit as <-.
      unfold traverser_ok. simpl. done.
    - by apply traverser_ok_step. }
  split; [done|]. destruct Hok as (Hcur & _).
  apply lookup_lt_Some in Hcur. split; [done|].
  rewrite reset_run. destruct (path_group (self w)); [simpl in Hcur; lia|done].
Qed.

Lemma reachable_traverser_ok_witness :
  reachable ex_last_crossing /\
  stop_event (self ex_last_crossing) = ex_stop 1 /\
  (reset ex_last_crossing).1 = Ok tt.
Proof.
  assert (reachable ex_last_crossing) as Hr
    by apply reachable_run, ex_constructed_reachable.
  pose proof (reachable_traverser_ok ex_last_crossing Hr)
    as ((_ & Hs & _) & _ & Hreset).
  split; [exact Hr|]. split; [exact Hs|exact Hreset].
Defined.

(** ** The clock across ticks and across runs *)

Lemma run_execute_tick d w :
  (run (execute_tick d) w).2 = (sample (start_timer (advance d w)).2).2.
Proof.
  unfold execute_tick. simpl.
  by destruct (sample _).
Qed.

(** X10: calling [start_timer] on every tick, as [execute] does, does not
    restart a running clock.  A tick (time passes, [start_timer], [sample])
    on a running timer whose reading, as [sample] finds it, is not beyond
    the duration of the segment leaves the timer as it was: the same start
    time, the same accumulated time, still running.  So the reading that
    [sample] finds is that of the timer started earlier, and the segment
    index stays. *)
Theorem clock_runs_on_across_ticks w d :
  Timer.m_running (timer (self w)) = true ->
  reading (start_timer (advance d w)).2 <= getTotalTime (current_path (self w)) ->
  let w' := (run (execute_tick d) w).2 in
  timer (self w') = timer (self w) /\
  reading w' = reading (start_timer (advance d w)).2 /\
  current_path_index (self w') = current_path_index (self w).
Proof.
  intros Hrun Hle. cbv zeta. rewrite run_execute_tick.
  remember (start_timer (advance d w)).2 as w2 eqn:Hw2.
  assert (timer (self w2) = timer (self w)) as Htm.
  { rewrite Hw2. unfold start_timer, timer_start, modify. simpl.
    unfold Timer.start. by rewrite Hrun. }
  assert (current_path (self w2) = current_path (self w)) as Hcp
    by (by rewrite Hw2).
  assert (current_path_index (self w2) = current_path_index (self w)) as Hi
    by (by rewrite Hw2).
  clear Hw2. rewrite <- Htm, <- Hi.
  destruct (paths_traversed (self w2)) eqn:Hpt.
  - by rewrite sample_run, Hpt.
  - destruct (sample_self w2 Hpt) as [own Hs].
    destruct (sample_frame w2 Hpt) as (_ & _ & _ & Hf).
    assert ((getTotalTime (current_path (self w2)) <? reading w2) = false)
      as Hno by (apply Z.ltb_ge; rewrite Hcp; exact Hle).
    rewrite Hno in Hs. unfold reading. by rewrite Hf, Hs.
Qed.

Lemma clock_runs_on_across_ticks_witness :
  Timer.m_running (timer (self (run (execute_tick 0) ex_constructed).2)) = true /\
  timer (self (run (execute_tick 700)
                 (run (execute_tick 0) ex_constructed).2).2) =
    timer (self (run (execute_tick 0) ex_constructed).2).
Proof.
  split; [reflexivity|].
  apply (clock_runs_on_across_ticks (run (execute_tick 0) ex_constructed).2 700);
    [reflexivity|vm_compute; discriminate].
Defined.

(** X11: [reset] does not touch the pending markers.  A marker that is
    pending when [reset] is called is still at the head of the pending list
    of the new run, and a call of [sample] in the new run that finds the
    timer at or beyond its trigger time calls the callback bound to its name
    with it, on the first segment of the group, whichever segment the
    marker was loaded from. *)
Theorem reset_keeps_pending_markers w p l m rest name cb d :
  path_group (self w) = p :: l ->
  the_event_markers w = m :: rest ->
  name ∈ marker_names m ->
  event_callbacks (klass w) !! name = Some cb ->
  let w' := (run [Reset; StartTimer; Advance d] w).2 in
  marker_time m <= reading w' ->
  current_path (self w') = p /\
  current_path_index (self w') = 0%nat /\
  the_event_markers w' = m :: rest /\
  calls_under name (sample_events w') = [MarkerCall name cb m].
Proof.
  intros Hpg Hl Hin Hcb. simpl.
  rewrite reset_run, Hpg. simpl.
  set (w' := advance d _). intros Hdue.
  assert (the_event_markers w' = m :: rest) as Hl'.
  { revert Hl. unfold the_event_markers, w'. simpl. done. }
  assert (paths_traversed (self w') = false) as Hpt by done.
  split; [done|]. split; [done|]. split; [done|].
  destruct (sample_events_head w' m rest Hpt Hl' Hdue) as (Hev & _).
  rewrite (sample_events_eq w' Hpt), Hev, calls_under_app.
  rewrite (calls_under_no_marker_call name (stop_events w'))
    by apply stop_events_are_stop_calls.
  rewrite app_nil_r. by apply marker_dispatch_bound.
Qed.

Lemma reset_keeps_pending_markers_witness :
  current_path_index (self ex_two_due) = 1%nat /\
  the_event_markers ex_two_due = ex_ma :: [ex_mb] /\
  marker_time ex_ma <=
    reading (run [Reset; StartTimer; Advance 150] ex_two_due).2 /\
  current_path (self (run [Reset; StartTimer; Advance 150] ex_two_due).2)
    = ex_seg0 /\
  calls_under "a"%string
    (sample_events (run [Reset; StartTimer; Advance 150] ex_two_due).2) =
    [MarkerCall "a"%string 1%nat ex_ma].
Proof.
  assert (marker_time ex_ma <=
          reading (run [Reset; StartTimer; Advance 150] ex_two_due).2) as Hdue
    by (vm_compute; discriminate).
  assert ("a"%string ∈ marker_names ex_ma) as Hin by left.
  pose proof (reset_keeps_pending_markers ex_two_due ex_seg0 [ex_seg1] ex_ma
                [ex_mb] "a"%string 1%nat 150 eq_refl eq_refl Hin eq_refl Hdue)
    as (Hp & _ & _ & Hc).
  split; [reflexivity|]. split; [reflexivity|]. split; [exact Hdue|].
  split; [exact Hp|exact Hc].
Defined.

(** * Properties of [SwerveAutoCommand] *)

Lemma start_timer_frame w :
  (start_timer w).1 = Ok tt /\
  paths_traversed (self (start_timer w).2) = paths_traversed (self w) /\
  current_path (self (start_timer w).2) = current_path (self w) /\
  current_path_index (self (start_timer w).2) = current_path_index (self w) /\
  path_group (self (start_timer w).2) = path_group (self w) /\
  klass (start_timer w).2 = klass w /\ log (start_timer w).2 = log w.
Proof. done. Qed.

(** [execute] never raises; it ends the command when the traverser is
    exhausted and drives to the sampled state otherwise. *)
Lemma execute_run c :
  SwerveAutoCommand.execute c =
    let w1 := (start_timer (traverser_world c)).2 in
    if paths_traversed (self (traverser_world c)) then
      (Ok tt, {| traverser_world := w1; finished := true; drive := drive c |})
    else
      (Ok tt,
       {| traverser_world := (sample w1).2; finished := finished c;
          drive := drive c ++
            [SetModuleStates
               (trajectory_sample (current_path (self (after_dispatch w1)))
                  (reading w1))] |}).
Proof.
  unfold SwerveAutoCommand.execute, SwerveAutoCommand.cbind,
    SwerveAutoCommand.lift. simpl.
  rewrite sample_run. simpl.
  by destruct (paths_traversed (self (traverser_world c))).
Qed.

Lemma initialize_run c :
  SwerveAutoCommand.initialize c =
    match path_group (self (traverser_world c)) with
    | [] =>
        (Raise IndexError,
         {| traverser_world := (reset (traverser_world c)).2;
            finished := false;
            drive := drive c ++ [ResetOdometer None; ResetGyro] |})
    | p :: _ =>
        (Ok tt,
         {| traverser_world := (reset (traverser_world c)).2;
            finished := false;
            drive := drive c ++
              [ResetOdometer None; ResetGyro;
               ResetOdometer (Some (state_pose (getInitialState p)))] |})
    end.
Proof.
  unfold SwerveAutoCommand.initialize, SwerveAutoCommand.cbind,
    SwerveAutoCommand.lift, SwerveAutoCommand.put_finished,
    SwerveAutoCommand.subsystem. simpl.
  rewrite reset_run.
  destruct (path_group (self (traverser_world c))) as [|p l]; simpl.
  - by rewrite <- app_assoc.
  - by rewrite <- !app_assoc.
Qed.

(** X12: the command finishes one tick late.  On the call of [execute] that
    finds the timer beyond the end of the last segment the drive is still
    commanded, to the last segment sampled at that time, and [isFinished]
    stays false; it is the next call of [execute], whenever it comes, that
    sets [finished], and that call commands nothing. *)
Theorem command_finishes_on_tick_after_last_crossing c d :
  let w1 := (start_timer (traverser_world c)).2 in
  paths_traversed (self (traverser_world c)) = false ->
  finished c = false ->
  getTotalTime (current_path (self w1)) < reading w1 ->
  (length (path_group (self w1)) <= current_path_index (self w1) + 1)%nat ->
  let c1 := (SwerveAutoCommand.execute c).2 in
  let c2 := command_run [CmdAdvance d; CmdExecute] c1 in
  SwerveAutoCommand.isFinished c1 = false /\
  drive c1 =
    drive c ++ [SetModuleStates
                  (trajectory_sample (current_path (self w1)) (reading w1))] /\
  SwerveAutoCommand.isFinished c2 = true /\
  drive c2 = drive c1.
Proof.
  intros w1 Hpt Hfin Hcross Hlast c1 c2. subst c1 c2. unfold w1 in *.
  clear w1. rewrite !execute_run, Hpt. cbv zeta.
  remember (start_timer (traverser_world c)).2 as w1 eqn:Hw1.
  assert (paths_traversed (self w1) = false) as Hpt1 by (by rewrite Hw1).
  clear Hw1.
  pose proof (after_marker_self_fields w1) as (_ & Hpg & Hi & Hcp & _).
  assert (self (after_dispatch w1) =
          put_paths_traversed true (self (after_marker w1))) as Hself.
  { unfold after_dispatch. apply Z.ltb_lt in Hcross. rewrite Hcross.
    unfold after_move, after_stop. simpl. rewrite Hpg, Hi.
    by rewrite lookup_ge_None_2. }
  assert (paths_traversed (self (sample w1).2) = true) as Hx.
  { rewrite sample_run, Hpt1. simpl. by rewrite Hself. }
  simpl. rewrite Hself, Hfin. simpl. rewrite Hcp.
  split; [done|]. split; [done|].
  rewrite execute_run. simpl. by rewrite Hx.
Qed.

Lemma command_finishes_on_tick_after_last_crossing_witness :
  finished ex_command_last = false /\
  SwerveAutoCommand.isFinished (SwerveAutoCommand.execute ex_command_last).2
    = false /\
  SwerveAutoCommand.isFinished
    (command_run [CmdAdvance 20; CmdExecute]
       (SwerveAutoCommand.execute ex_command_last).2) = true.
Proof.
  assert (getTotalTime
            (current_path (self (start_timer (traverser_world ex_command_last)).2))
          < reading (start_timer (traverser_world ex_command_last)).2) as Hcross
    by reflexivity.
  assert (length (path_group
                    (self (start_timer (traverser_world ex_command_last)).2))
          <= current_path_index
               (self (start_timer (traverser_world ex_command_last)).2) + 1)%nat
    as Hlast by (vm_compute; lia).
  pose proof (command_finishes_on_tick_after_last_crossing ex_command_last 20
                eq_refl eq_refl Hcross Hlast) as (H1 & _ & H2 & _).
  split; [reflexivity|]. split; [exact H1|exact H2].
Defined.

Lemma command_step_exhausted o c :
  paths_traversed (self (traverser_world c)) = true ->
  o <> CmdInitialize ->
  let c' := command_step o c in
  paths_traversed (self (traverser_world c')) = true /\
  drive c' = drive c /\
  log (traverser_world c') = log (traverser_world c) /\
  klass (traverser_world c') = klass (traverser_world c) /\
  (finished c = true \/ o = CmdExecute -> finished c' = true).
Proof.
  intros Hpt Hne. destruct o as [d| | |b]; simpl; try done.
  - repeat split; try done. by intros [?|?].
  - rewrite execute_run, Hpt. simpl. done.
  - unfold SwerveAutoCommand.end_. destruct b; simpl; repeat split; try done.
    by intros [?|?].
Qed.

(** X13: once the traverser is exhausted the command is quiet.  Whatever
    the scheduler then does short of [initialize] (calls of [execute], of
    [end], time passing), no call reaches the swerve subsystem, no callback
    is called and the callback tables stay as they are; and [isFinished]
    holds from the first call of [execute] on. *)
Theorem exhausted_command_is_quiet ops : forall c,
  paths_traversed (self (traverser_world c)) = true ->
  CmdInitialize ∉ ops ->
  let c' := command_run ops c in
  drive c' = drive c /\
  log (traverser_world c') = log (traverser_world c) /\
  klass (traverser_world c') = klass (traverser_world c) /\
  (finished c = true \/ CmdExecute ∈ ops -> SwerveAutoCommand.isFinished c' = true).
Proof.
  induction ops as [|o ops IH]; intros c Hpt Hno; simpl.
  - repeat split; try done. intros [?|H]; [done|]. by apply elem_of_nil in H.
  - apply not_elem_of_cons in Hno as [Hne Hno].
    destruct (command_step_exhausted o c Hpt) as (Hpt' & Hd & Hl & Hk & Hf);
      [done|].
    destruct (IH (command_step o c) Hpt' Hno) as (Hd' & Hl' & Hk' & Hf').
    change (foldl (fun c o => command_step o c) (command_step o c) ops)
      with (command_run ops (command_step o c)).
    rewrite Hd', Hl', Hk', Hd, Hl, Hk. repeat split; try done.
    intros [Hfin|Hin]; apply Hf'.
    + left. apply Hf. by left.
    + apply elem_of_cons in Hin as [Heq|Hin]; [|by right].
      left. apply Hf. by right.
Qed.

Lemma exhausted_command_is_quiet_witness :
  paths_traversed
    (self (traverser_world (SwerveAutoCommand.execute ex_command_last).2)) = true /\
  drive (command_run [CmdExecute; CmdAdvance 20; CmdExecute; CmdEnd false]
           (SwerveAutoCommand.execute ex_command_last).2) =
    drive (SwerveAutoCommand.execute ex_command_last).2.
Proof.
  split; [reflexivity|].
  apply (exhausted_command_is_quiet
           [CmdExecute; CmdAdvance 20; CmdExecute; CmdEnd false]
           (SwerveAutoCommand.execute ex_command_last).2 eq_refl).
  intros H. repeat (apply elem_of_cons in H as [H|H]; [discriminate|]).
  by apply elem_of_nil in H.
Defined.

Lemma finished_implies_exhausted_step o c :
  o <> CmdEnd false ->
  (finished c = true -> paths_traversed (self (traverser_world c)) = true) ->
  finished (command_step o c) = true ->
  paths_traversed (self (traverser_world (command_step o c))) = true.
Proof.
  intros Hne Hinv. destruct o as [d| | |b]; simpl.
  - exact Hinv.
  - rewrite initialize_run.
    by destruct (path_group (self (traverser_world c))).
  - rewrite execute_run.
    destruct (paths_traversed (self (traverser_world c))) eqn:Hpt; simpl.
    + done.
    + intros Hfin. specialize (Hinv Hfin). congruence.
  - destruct b; [exact Hinv|done].
Qed.

(** X14: [isFinished] only ever becomes true through exhaustion.  From a
    command that is not finished, as long as nobody calls [end(False)] from
    outside, [isFinished] holds after a run only if the traverser is
    exhausted. *)
Theorem finished_only_when_exhausted ops : forall c,
  finished c = false ->
  CmdEnd false ∉ ops ->
  SwerveAutoCommand.isFinished (command_run ops c) = true ->
  paths_traversed (self (traverser_world (command_run ops c))) = true.
Proof.
  assert (forall c,
    (finished c = true -> paths_traversed (self (traverser_world c)) = true) ->
    CmdEnd false ∉ ops ->
    finished (command_run ops c) = true ->
    paths_traversed (self (traverser_world (command_run ops c))) = true) as H.
  { induction ops as [|o ops IH]; intros c Hinv Hno; [exact Hinv|].
    apply not_elem_of_cons in Hno as [Hne Hno]. simpl.
    apply (IH (command_step o c)); [|done].
    by apply finished_implies_exhausted_step. }
  intros c Hfin Hno. apply H; [|done]. by rewrite Hfin.
Qed.

Lemma finished_only_when_exhausted_witness :
  finished ex_command = false /\
  SwerveAutoCommand.isFinished
    (command_run [CmdInitialize; CmdExecute; CmdAdvance 2500; CmdExecute;
                  CmdAdvance 1500; CmdExecute; CmdExecute] ex_command) = true /\
  paths_traversed
    (self (traverser_world
       (command_run [CmdInitialize; CmdExecute; CmdAdvance 2500; CmdExecute;
                     CmdAdvance 1500; CmdExecute; CmdExecute] ex_command))) = true.
Proof.
  split; [reflexivity|]. split; [reflexivity|].
  apply (finished_only_when_exhausted
           [CmdInitialize; CmdExecute; CmdAdvance 2500; CmdExecute;
            CmdAdvance 1500; CmdExecute; CmdExecute] ex_command eq_refl);
    [|reflexivity].
  intros H. repeat (apply elem_of_cons in H as [H|H]; [discriminate|]).
  by apply elem_of_nil in H.
Defined.



(** X16: constructing the command over an empty path group raises
    [IndexError] inside the traverser's constructor, before the stop
    callback is registered: nothing at all is changed.  Over a group that
    starts with [p] the construction succeeds: the command is not finished,
    its traverser is on [p], nothing was sent to the subsystem, and
    [handle_stop] has been appended to the stop-event callbacks of the
    class, after those that earlier constructions left there. *)
Theorem command_construction handle_stop c :
  SwerveAutoCommand.init [] handle_stop c = (Raise IndexError, c) /\
  forall p l,
    let c' := (SwerveAutoCommand.init (p :: l) handle_stop c).2 in
    (SwerveAutoCommand.init (p :: l) handle_stop c).1 = Ok tt /\
    stop_event_callbacks (klass (traverser_world c')) =
      stop_event_callbacks (klass (traverser_world c)) ++ [handle_stop] /\
    event_callbacks (klass (traverser_world c')) =
      event_callbacks (klass (traverser_world c)) /\
    SwerveAutoCommand.isFinished c' = false /\
    current_path (self (traverser_world c')) = p /\
    paths_traversed (self (traverser_world c')) = false /\
    drive c' = drive c /\
    log (traverser_world c') = log (traverser_world c).
Proof.
  split; [done|]. intros p l.
  unfold SwerveAutoCommand.init, SwerveAutoCommand.cbind,
    SwerveAutoCommand.lift. simpl.
  rewrite PathTraverser_init_run. simpl. done.
Qed.

(** * Attributes that [move_to_next_path] leaves behind *)

Lemma step_path_group o w : path_group (self (step o w).2) = path_group (self w).
Proof.
  destruct o; try done.
  - rewrite step_sample. destruct (paths_traversed (self w)) eqn:Hpt.
    + by rewrite sample_run, Hpt.
    + by destruct (sample_position w Hpt) as [-> _].
  - rewrite step_reset. by destruct (reset_frame w) as (_ & _ & _ & _ & ->).
Qed.

Lemma initial_state_ok_step o w p0 l :
  path_group (self w) = p0 :: l ->
  current_path_initial_state (self w) = asWPILibState (getInitialState p0) ->
  current_path_initial_state (self (step o w).2) =
    asWPILibState (getInitialState p0).
Proof.
  intros Hpg Hinit. destruct o; try done.
  - rewrite step_sample. destruct (paths_traversed (self w)) eqn:Hpt.
    + by rewrite sample_run, Hpt.
    + destruct (sample_self w Hpt) as [own ->].
      destruct (getTotalTime (current_path (self w)) <? reading w); [|done].
      by destruct (path_group (self w) !! (current_path_index (self w) + 1)%nat).
  - by rewrite step_reset, reset_run, Hpg.
Qed.

(** X17: the attribute [current_path_initial_state] is set by [reset] only.
    In every world that a constructed traverser can reach it holds the
    initial state of the first segment of the group, also after the
    traverser has moved on to later segments, whereas [get_initial_state()]
    answers with the initial state of the segment that is current. *)
Theorem initial_state_attribute_is_of_first_segment w :
  reachable w ->
  exists p0 l,
    path_group (self w) = p0 :: l /\
    current_path_initial_state (self w) = asWPILibState (getInitialState p0) /\
    get_initial_state w =
      (Ok (asWPILibState (getInitialState (current_path (self w)))), w).
Proof.
  intros Hw.
  assert (exists p0 l, path_group (self w) = p0 :: l /\
            current_path_initial_state (self w) =
              asWPILibState (getInitialState p0)) as (p0 & l & Hpg & Hinit).
  { induction Hw as [loaded w0 w H0 Hinit|o w Hw IH].
    - rewrite PathTraverser_init_run in Hinit.
      destruct loaded as [|p l]; [done|]. injection Hinit as <-.
      by exists p, l.
    - destruct IH as (p0 & l & Hpg & Hinit). exists p0, l.
      rewrite step_path_group. split; [done|].
      by apply (initial_state_ok_step o w p0 l). }
  by exists p0, l.
Qed.

Lemma initial_state_attribute_is_of_first_segment_witness :
  reachable ex_after_crossing /\
  current_path (self ex_after_crossing) = ex_seg1 /\
  current_path_initial_state (self ex_after_crossing) =
    asWPILibState (getInitialState ex_seg0).
Proof.
  assert (reachable ex_after_crossing) as Hr
    by apply reachable_run, ex_constructed_reachable.
  destruct (initial_state_attribute_is_of_first_segment ex_after_crossing Hr)
    as (p0 & l & Hpg & Hinit & _).
  split; [exact Hr|]. split; [reflexivity|].
  injection Hpg as <- _. exact Hinit.
Defined.

(** ** The markers of the first segment *)

Lemma from_later_segment_step o w m :
  from_later_segment (step o w).2 m <-> from_later_segment w m.
Proof. unfold from_later_segment. by rewrite step_path_group. Qed.

Lemma later_markers_step o w :
  later_markers_only w -> later_markers_only (step o w).2.
Proof.
  intros (Hcls & Hown). split.
  - destruct o; try done.
    + rewrite step_sample. destruct (paths_traversed (self w)) eqn:Hpt.
      { by rewrite sample_run, Hpt. }
      rewrite sample_run, Hpt. simpl.
      rewrite after_dispatch_event_markers.
      destruct (own_event_markers (self w)) eqn:Ho; [done|].
      unfold marker_pending, the_event_markers. by rewrite Ho, Hcls.
    + rewrite step_reset. by destruct (reset_frame w) as (-> & _).
  - intros lo Hlo m Hm. apply from_later_segment_step.
    destruct o; try (by apply (Hown lo Hlo)).
    + rewrite step_sample in Hlo.
      destruct (paths_traversed (self w)) eqn:Hpt.
      { rewrite sample_run, Hpt in Hlo. by apply (Hown lo Hlo). }
      assert (forall m, m ∈ marker_pending w -> from_later_segment w m)
        as Hpend.
      { intros m' Hm'. unfold marker_pending, the_event_markers in Hm'.
        destruct (own_event_markers (self w)) as [l0|] eqn:Ho.
        - apply (Hown l0 eq_refl).
          destruct l0 as [|m0 rest]; [done|].
          destruct (marker_time m0 <=? reading w); [by right|done].
        - rewrite Hcls in Hm'. by apply elem_of_nil in Hm'. }
      pose proof (sample_pending w Hpt) as Hp.
      unfold the_event_markers in Hp at 1. rewrite Hlo in Hp. subst lo.
      destruct (getTotalTime (current_path (self w)) <? reading w);
        [|by apply Hpend].
      destruct (path_group (self w) !! (current_path_index (self w) + 1)%nat)
        as [p|] eqn:Hpp; [|by apply Hpend].
      exists (current_path_index (self w) + 1)%nat, p.
      split; [lia|]. by split.
    + rewrite step_reset in Hlo.
      destruct (reset_frame w) as (_ & _ & _ & Ho & _). rewrite Ho in Hlo.
      by apply (Hown lo Hlo).
Qed.

Lemma later_markers_run ops : forall w,
  later_markers_only w -> later_markers_only (run ops w).2.
Proof.
  induction ops as [|o ops IH]; intros w Hw; [done|].
  change (o :: ops) with ([o] ++ ops). rewrite run_app. apply IH.
  assert ((run [o] w).2 = (step o w).2) as ->
    by (simpl; by destruct (step o w)).
  by apply later_markers_step.
Qed.

Lemma step_marker_calls o w :
  later_markers_only w ->
  exists evs, log (step o w).2 = log w ++ evs /\
    forall name cb m, MarkerCall name cb m ∈ evs -> from_later_segment w m.
Proof.
  intros (Hcls & Hown).
  assert (forall evs : list Event, evs = [] ->
            forall name cb m, MarkerCall name cb m ∈ evs ->
                              from_later_segment w m) as Hnil
    by (intros evs -> ? ? ? ?%elem_of_nil; done).
  destruct o.
  - exists []. rewrite app_nil_r. split; [done|by apply Hnil].
  - exists []. rewrite app_nil_r. split; [done|by apply Hnil].
  - rewrite step_sample. destruct (paths_traversed (self w)) eqn:Hpt.
    + exists []. rewrite sample_run, Hpt, app_nil_r. split; [done|by apply Hnil].
    + destruct (sample_frame w Hpt) as (Hlog & _).
      exists (marker_events w ++ stop_events w). split; [done|].
      intros name cb m [Hin|Hin]%elem_of_app;
        [|by apply stop_events_are_stop_calls in Hin].
      unfold marker_events, the_event_markers in Hin.
      destruct (own_event_markers (self w)) as [lo|] eqn:Ho.
      * destruct lo as [|m0 rest]; [by apply elem_of_nil in Hin|].
        destruct (marker_time m0 <=? reading w); [|by apply elem_of_nil in Hin].
        apply marker_dispatch_events in Hin as (n & c & Heq & _).
        injection Heq as _ _ ->. apply (Hown _ eq_refl). by left.
      * rewrite Hcls in Hin. by apply elem_of_nil in Hin.
  - exists []. rewrite app_nil_r. split; [done|by apply Hnil].
  - exists []. rewrite app_nil_r. split; [done|by apply Hnil].
  - exists []. rewrite step_reset. destruct (reset_frame w) as (_ & -> & _).
    rewrite app_nil_r. split; [done|by apply Hnil].
Qed.

Lemma run_marker_calls ops : forall w,
  later_markers_only w ->
  exists evs, log (run ops w).2 = log w ++ evs /\
    forall name cb m, MarkerCall name cb m ∈ evs -> from_later_segment w m.
Proof.
  induction ops as [|o ops IH]; intros w Hw.
  - exists []. rewrite app_nil_r. split; [done|]. by intros ? ? ? ?%elem_of_nil.
  - destruct (step_marker_calls o w Hw) as (evs1 & Hl1 & H1).
    destruct (IH _ (later_markers_step o w Hw)) as (evs2 & Hl2 & H2).
    change (o :: ops) with ([o] ++ ops). rewrite run_app.
    assert ((run [o] w).2 = (step o w).2) as ->
      by (simpl; by destruct (step o w)).
    exists (evs1 ++ evs2). rewrite Hl2, Hl1, app_assoc. split; [done|].
    intros name cb m [Hin|Hin]%elem_of_app; [by eapply H1|].
    by apply (from_later_segment_step o w), H2 with name cb.
Qed.

(** X18: the markers of the first segment are never dispatched.  For a
    traverser constructed while the class-level marker list is empty, every
    marker callback that any later run of operations calls is called with a
    marker of a segment at index 1 or more of the path group: a marker that
    only the first segment carries never reaches a callback. *)
Theorem first_segment_markers_never_dispatched loaded w0 w ops name cb m :
  self w0 = new_object ->
  event_markers (klass w0) = [] ->
  PathTraverser_init loaded w0 = (Ok tt, w) ->
  MarkerCall name cb m ∈ run_events ops w ->
  exists i p, (0 < i)%nat /\ loaded !! i = Some p /\ m ∈ getMarkers p.
Proof.
  intros H0 Hcls Hinit Hin.
  rewrite PathTraverser_init_run in Hinit.
  destruct loaded as [|p0 l]; [done|]. injection Hinit as <-.
  set (w := with_self _ w0) in *.
  assert (later_markers_only w) as Hw.
  { split; [done|]. intros lo Hlo. unfold w in Hlo. simpl in Hlo.
    by rewrite H0 in Hlo. }
  destruct (run_marker_calls ops w Hw) as (evs & Hlog & Hev).
  unfold run_events in Hin. rewrite Hlog, drop_app_length in Hin.
  exact (Hev name cb m Hin).
Qed.

Lemma first_segment_markers_never_dispatched_witness :
  PathTraverser_init [ex_seg0; ex_seg1] ex_boot = (Ok tt, ex_constructed) /\
  MarkerCall "a"%string 1%nat ex_ma ∈
    run_events ([On "a"%string 1%nat; On "m1"%string 9%nat] ++ execute_tick 0
                ++ execute_tick 1500 ++ execute_tick 1000 ++ execute_tick 500)
      ex_constructed /\
  exists i p, (0 < i)%nat /\ [ex_seg0; ex_seg1] !! i = Some p /\
              ex_ma ∈ getMarkers p.
Proof.
  assert (MarkerCall "a"%string 1%nat ex_ma ∈
    run_events ([On "a"%string 1%nat; On "m1"%string 9%nat] ++ execute_tick 0
                ++ execute_tick 1500 ++ execute_tick 1000 ++ execute_tick 500)
      ex_constructed) as Hin by (vm_compute; left).
  split; [reflexivity|]. split; [exact Hin|].
  exact (first_segment_markers_never_dispatched [ex_seg0; ex_seg1] ex_boot
           ex_constructed _ "a"%string 1%nat ex_ma eq_refl eq_refl eq_refl Hin).
Defined.
